(** * btree: an unbalanced binary tree over heap-allocated nodes

    A shallow embedding of [btree.go].  Go's [*Node] pointers are
    locations of a node store; [nil] is [None].  The recursive methods
    follow pointers through the store, so they take a recursion budget
    and return [None] when the budget runs out (a call chain that never
    returns) or when a pointer is not backed by a node.  The word
    counter of [main/wordcount.go] is embedded on top of the same
    definitions. *)

From stdpp Require Import gmap list sorting strings.
From Stdlib Require Import DecimalString.

(** ** Data model *)

Definition loc := positive.

Section btree.

(** [Payload interface{}]: the tree never looks inside it. *)
Context {P : Type}.

(** [type Node struct { Payload interface{}; Left, Right *Node }] *)
Record Node := mkNode {
  Payload : P;
  Left : option loc;
  Right : option loc;
}.

(** [type LessFunc func(a, b *Node) bool]: the callback reads the two
    nodes it is handed. *)
Definition LessFunc := Node → Node → bool.

(** [type BTree struct { Root *Node; Less LessFunc }] *)
Record BTree := mkBTree {
  Root : option loc;
  Less : LessFunc;
}.

(** [func New(less LessFunc) *BTree] *)
Definition New (less : LessFunc) : BTree :=
  {| Root := None; Less := less |}.

(** [from.Left = n] and [from.Right = n] *)
Definition setLeft (nd : Node) (n : loc) : Node :=
  {| Payload := Payload nd; Left := Some n; Right := Right nd |}.
Definition setRight (nd : Node) (n : loc) : Node :=
  {| Payload := Payload nd; Left := Left nd; Right := Some n |}.

(** ** Upsert *)

(** [func (b *BTree) upsertFrom(from, n *Node) (intree *Node, inserted bool)] *)
Fixpoint upsertFrom (fuel : nat) (less : LessFunc) (h : gmap loc Node)
    (from n : loc) : option (gmap loc Node * (loc * bool)) :=
  match fuel with
  | O => None
  | S k =>
    match h !! from, h !! n with
    | Some c, Some m =>
      if less c m then
        match Left c with
        | None => Some (<[from := setLeft c n]> h, (n, true))
        | Some l => upsertFrom k less h l n
        end
      else if less m c then
        match Right c with
        | None => Some (<[from := setRight c n]> h, (n, true))
        | Some r => upsertFrom k less h r n
        end
      else Some (h, (from, false))
    | _, _ => None
    end
  end.

(** [func (b *BTree) Upsert(n *Node) (intree *Node, inserted bool)] *)
Definition Upsert (fuel : nat) (b : BTree) (h : gmap loc Node) (n : loc)
    : option (BTree * gmap loc Node * (loc * bool)) :=
  match Root b with
  | None => Some ({| Root := Some n; Less := Less b |}, h, (n, true))
  | Some root =>
    match upsertFrom fuel (Less b) h root n with
    | Some (h', r) => Some (b, h', r)
    | None => None
    end
  end.

(** ** Traversals *)

(** [type WalkFunc func(n *Node)]: the visitor receives the node and may
    write to the store and to a state [W] of its own (an output stream,
    a counter). *)
Definition WalkFunc (W : Type) := loc → gmap loc Node * W → gmap loc Node * W.

Section traversals.
Context {W : Type}.

(** [func (b *BTree) depthFirstInOrderFrom(n *Node, walk WalkFunc)];
    [n.Left] is read before [walk(n)] and [n.Right] after it. *)
Fixpoint depthFirstInOrderFrom (fuel : nat) (n : loc) (walk : WalkFunc W)
    (s : gmap loc Node * W) : option (gmap loc Node * W) :=
  match fuel with
  | O => None
  | S k =>
    match s.1 !! n with
    | None => None
    | Some nd =>
      match
        match Left nd with
        | Some l => depthFirstInOrderFrom k l walk s
        | None => Some s
        end
      with
      | None => None
      | Some s1 =>
        let s2 := walk n s1 in
        match s2.1 !! n with
        | None => None
        | Some nd2 =>
          match Right nd2 with
          | Some r => depthFirstInOrderFrom k r walk s2
          | None => Some s2
          end
        end
      end
    end
  end.

(** [func (b *BTree) DepthFirstInOrder(walk WalkFunc)] *)
Definition DepthFirstInOrder (fuel : nat) (b : BTree) (walk : WalkFunc W)
    (s : gmap loc Node * W) : option (gmap loc Node * W) :=
  match Root b with
  | None => Some s
  | Some root => depthFirstInOrderFrom fuel root walk s
  end.

(** [func (b *BTree) depthFirstReverseFrom(n *Node, walk WalkFunc)]: both
    recursive calls are to [depthFirstInOrderFrom]. *)
Definition depthFirstReverseFrom (fuel : nat) (n : loc) (walk : WalkFunc W)
    (s : gmap loc Node * W) : option (gmap loc Node * W) :=
  match fuel with
  | O => None
  | S k =>
    match s.1 !! n with
    | None => None
    | Some nd =>
      match
        match Right nd with
        | Some r => depthFirstInOrderFrom k r walk s
        | None => Some s
        end
      with
      | None => None
      | Some s1 =>
        let s2 := walk n s1 in
        match s2.1 !! n with
        | None => None
        | Some nd2 =>
          match Left nd2 with
          | Some l => depthFirstInOrderFrom k l walk s2
          | None => Some s2
          end
        end
      end
    end
  end.

(** [func (b *BTree) DepthFirstReverse(walk WalkFunc)] *)
Definition DepthFirstReverse (fuel : nat) (b : BTree) (walk : WalkFunc W)
    (s : gmap loc Node * W) : option (gmap loc Node * W) :=
  match Root b with
  | None => Some s
  | Some root => depthFirstReverseFrom fuel root walk s
  end.

End traversals.

(** The visitor that only records which node it was called on. *)
Definition record_visit : WalkFunc (list loc) :=
  λ n s, (s.1, s.2 ++ [n]).

(** The visitor called on each node of [xs] in turn. *)
Definition walk_all {W : Type} (walk : WalkFunc W) (s : gmap loc Node * W)
    (xs : list loc) : gmap loc Node * W :=
  foldl (λ s x, walk x s) s xs.

(** ** Callers *)

(** [&btree.Node{Payload: p}]: a new node, both children [nil]. *)
Definition NewNode (p : P) (h : gmap loc Node) : gmap loc Node * loc :=
  let n := fresh (dom h) in
  (<[n := {| Payload := p; Left := None; Right := None |}]> h, n).

(** [bt.Upsert(&btree.Node{Payload: p})] *)
Definition UpsertPayload (fuel : nat) (p : P) (s : BTree * gmap loc Node)
    : option (BTree * gmap loc Node * (loc * bool)) :=
  let '(h1, n) := NewNode p s.2 in Upsert fuel s.1 h1 n.

(** The loop of [main]: one [Upsert] of a new node per payload read. *)
Fixpoint UpsertAll (fuel : nat) (ps : list P) (s : BTree * gmap loc Node)
    : option (BTree * gmap loc Node) :=
  match ps with
  | [] => Some s
  | p :: ps' =>
    match UpsertPayload fuel p s with
    | Some (b', h', _) => UpsertAll fuel ps' (b', h')
    | None => None
    end
  end.

End btree.

Arguments Node : clear implicits.
Arguments LessFunc : clear implicits.
Arguments BTree : clear implicits.
Arguments WalkFunc : clear implicits.

(** ** The tree a store represents *)

Section shape.
Context {P : Type}.

(** The shape reachable from a root pointer: each vertex carries the
    location of its node and the payload stored there. *)
Inductive tree :=
  | Nil
  | T (l : tree) (x : loc) (p : P) (r : tree).

Definition root_of (t : tree) : option loc :=
  match t with Nil => None | T _ x _ _ => Some x end.

(** The store holds, at every vertex of [t], a node with that payload
    whose [Left] and [Right] point to the roots of the two subtrees. *)
Fixpoint heap_tree (h : gmap loc (Node P)) (t : tree) : Prop :=
  match t with
  | Nil => True
  | T l x p r =>
    h !! x = Some (mkNode p (root_of l) (root_of r))
    ∧ heap_tree h l ∧ heap_tree h r
  end.

(** Left subtree, vertex, right subtree. *)
Fixpoint inorder (t : tree) : list loc :=
  match t with Nil => [] | T l x _ r => inorder l ++ x :: inorder r end.

(** Right subtree left to right, the root, left subtree left to right. *)
Definition reverse_order (t : tree) : list loc :=
  match t with Nil => [] | T l x _ r => inorder r ++ x :: inorder l end.

Fixpoint payloads (t : tree) : list P :=
  match t with Nil => [] | T l _ p r => payloads l ++ p :: payloads r end.

Fixpoint height (t : tree) : nat :=
  match t with Nil => 0 | T l _ _ r => S (height l `max` height r) end.

(** [b] and [h] hold the tree [t], and no node occurs twice in it. *)
Record rep (b : BTree P) (h : gmap loc (Node P)) (t : tree) : Prop := mkRep {
  rep_root : Root b = root_of t;
  rep_heap : heap_tree h t;
  rep_nodup : NoDup (inorder t);
}.

(** The payload found behind a pointer. *)
Definition payload_at (h : gmap loc (Node P)) (x : loc) : option P :=
  Payload <$> h !! x.

(** The two link fields of every node, payloads forgotten. *)
Definition links (h : gmap loc (Node P)) : gmap loc (option loc * option loc) :=
  (λ nd, (Left nd, Right nd)) <$> h.

(** The link fields alone already lay out the tree [t]. *)
Fixpoint link_tree (k : gmap loc (option loc * option loc)) (t : tree) : Prop :=
  match t with
  | Nil => True
  | T l x _ r =>
    k !! x = Some (root_of l, root_of r) ∧ link_tree k l ∧ link_tree k r
  end.

Section order.
Variable lt : P → P → bool.

(** Neither payload is less than the other. *)
Definition equivalent (p q : P) : bool := negb (lt p q) && negb (lt q p).

(** What [upsertFrom] does to the shape when [n] is a new leaf node. *)
Fixpoint ins (t : tree) (n : loc) (p : P) : tree * (loc * bool) :=
  match t with
  | Nil => (T Nil n p Nil, (n, true))
  | T l x q r =>
    if lt q p then
      let '(l', res) := ins l n p in (T l' x q r, res)
    else if lt p q then
      let '(r', res) := ins r n p in (T l x q r', res)
    else (t, (x, false))
  end.

(** At every vertex the payloads below [Left] are greater than the
    vertex's and the payloads below [Right] are less. *)
Fixpoint ordered (t : tree) : Prop :=
  match t with
  | Nil => True
  | T l _ p r =>
    Forall (λ q, lt p q = true) (payloads l)
    ∧ Forall (λ q, lt q p = true) (payloads r)
    ∧ ordered l ∧ ordered r
  end.

(** The payloads that remain when each payload equivalent to one kept
    before it is dropped. *)
Definition keep_distinct (kept : list P) (p : P) : list P :=
  if existsb (equivalent p) kept then kept else kept ++ [p].
Definition distinct_under (ps : list P) : list P :=
  foldl keep_distinct [] ps.

End order.
End shape.

Arguments tree : clear implicits.

(** ** The branch rule as the specification words it *)

Section rule.
Context {P : Type}.
Variable less : LessFunc P.
Variable h : gmap loc (Node P).
Variable n : loc.

(** Starting at [cur]: [less(cur, n)] goes to [cur.Left], [less(n, cur)]
    goes to [cur.Right], neither stops with [(cur, false)]; an absent
    target slot receives [n] and the answer is [(n, true)]. *)
Inductive branch_rule : loc → gmap loc (Node P) * (loc * bool) → Prop :=
  | rule_left_place cur c m :
      h !! cur = Some c → h !! n = Some m →
      less c m = true → Left c = None →
      branch_rule cur (<[cur := setLeft c n]> h, (n, true))
  | rule_left_descend cur c m l res :
      h !! cur = Some c → h !! n = Some m →
      less c m = true → Left c = Some l →
      branch_rule l res → branch_rule cur res
  | rule_right_place cur c m :
      h !! cur = Some c → h !! n = Some m →
      less m c = true → Right c = None →
      branch_rule cur (<[cur := setRight c n]> h, (n, true))
  | rule_right_descend cur c m r res :
      h !! cur = Some c → h !! n = Some m →
      less m c = true → Right c = Some r →
      branch_rule r res → branch_rule cur res
  | rule_stop cur c m :
      h !! cur = Some c → h !! n = Some m →
      less c m = false → less m c = false →
      branch_rule cur (h, (cur, false)).

End rule.

(** ** The ordering contract *)

Record StrictWeakOrder {P : Type} (lt : P → P → bool) : Prop := {
  swo_irrefl : ∀ p, lt p p = false;
  swo_trans : ∀ p q s, lt p q = true → lt q s = true → lt p s = true;
  swo_equiv_trans : ∀ p q s,
    equivalent lt p q = true → equivalent lt q s = true →
    equivalent lt p s = true;
}.

(** ** The public operations as steps of a tree's life *)

Inductive tree_state := Empty | Populated.

Definition state_of {P : Type} (b : BTree P) : tree_state :=
  match Root b with None => Empty | Some _ => Populated end.

Inductive op (P W : Type) :=
  | OpUpsert (n : loc)
  | OpInOrder (walk : WalkFunc P W)
  | OpReverse (walk : WalkFunc P W).
Arguments OpUpsert {P W} n.
Arguments OpInOrder {P W} walk.
Arguments OpReverse {P W} walk.

Definition step {P W : Type} (fuel : nat) (o : op P W)
    (s : BTree P * (gmap loc (Node P) * W))
    : option (BTree P * (gmap loc (Node P) * W)) :=
  match o with
  | OpUpsert n =>
    match Upsert fuel s.1 s.2.1 n with
    | Some (b', h', _) => Some (b', (h', s.2.2))
    | None => None
    end
  | OpInOrder walk =>
    match DepthFirstInOrder fuel s.1 walk s.2 with
    | Some s' => Some (s.1, s')
    | None => None
    end
  | OpReverse walk =>
    match DepthFirstReverse fuel s.1 walk s.2 with
    | Some s' => Some (s.1, s')
    | None => None
    end
  end.

Fixpoint run {P W : Type} (fuel : nat) (os : list (op P W))
    (s : BTree P * (gmap loc (Node P) * W))
    : option (BTree P * (gmap loc (Node P) * W)) :=
  match os with
  | [] => Some s
  | o :: os' =>
    match step fuel o s with
    | Some s' => run fuel os' s'
    | None => None
    end
  end.

(** ** Trees built through the API *)

(** What a caller reaches from [New] by allocating nodes with
    [&Node{Payload: p}] and passing allocated nodes to [Upsert], in any
    order and any number of times. *)
Inductive built {P : Type} (less : LessFunc P)
    : BTree P → gmap loc (Node P) → Prop :=
  | built_New : built less (New less) ∅
  | built_NewNode b h p :
      built less b h → built less b (NewNode p h).1
  | built_Upsert b h n m fuel b' h' res :
      built less b h → h !! n = Some m →
      Upsert fuel b h n = Some (b', h', res) →
      built less b' h'.

(** What [upsertFrom] may do to a node: write a link field that was
    [nil], nothing else. *)
Definition extends {P : Type} (nd nd' : Node P) : Prop :=
  Payload nd' = Payload nd
  ∧ (∀ y, Left nd = Some y → Left nd' = Some y)
  ∧ (∀ y, Right nd = Some y → Right nd' = Some y).

(** ** A concrete instance: integer payloads under [<] *)

Definition lessZ : LessFunc Z := λ a b, (Payload a <? Payload b)%Z.

(** Four nodes carrying 5, 3, 3 and 5, the first one the root of a tree
    and the others not yet in it. *)
Definition store4 : gmap loc (Node Z) :=
  <[4%positive := mkNode 5%Z None None]>
    (<[3%positive := mkNode 3%Z None None]>
      (<[2%positive := mkNode 3%Z None None]>
        (<[1%positive := mkNode 5%Z None None]> ∅))).
Definition tree5 : BTree Z := {| Root := Some 1%positive; Less := lessZ |}.
Definition shape5 : tree Z := T Nil 1%positive 5%Z Nil.

(** Three nodes all carrying 5, the first one the root of a tree and
    the others not yet in it. *)
Definition store555 : gmap loc (Node Z) :=
  <[3%positive := mkNode 5%Z None None]>
    (<[2%positive := mkNode 5%Z None None]>
      (<[1%positive := mkNode 5%Z None None]> ∅)).

(** The tree that upserting 5, 3, 8 leaves behind. *)
Definition store538 : gmap loc (Node Z) :=
  <[3%positive := mkNode 8%Z None None]>
    (<[2%positive := mkNode 3%Z None None]>
      (<[1%positive := mkNode 5%Z (Some 3%positive) (Some 2%positive)]> ∅)).
Definition shape538 : tree Z :=
  T (T Nil 3%positive 8%Z Nil) 1%positive 5%Z (T Nil 2%positive 3%Z Nil).

(** A comparison that is irreflexive but not transitive: 3 below 5 and
    5 below 8, nothing else. *)
Definition lt_chain (p q : Z) : bool :=
  ((p =? 3) && (q =? 5) || (p =? 5) && (q =? 8))%Z.
Definition less_chain : LessFunc Z := λ a b, lt_chain (Payload a) (Payload b).

(** A comparison that holds of every pair, also of a node and itself. *)
Definition less_always : LessFunc Z := λ _ _, true.

(** ** Vertices, payload updates and chains *)

Section shape_more.
Context {P : Type}.

(** The vertices of a tree, left subtree, vertex, right subtree: each
    node with the payload it holds. *)
Fixpoint elems (t : tree P) : list (loc * P) :=
  match t with Nil => [] | T l x p r => elems l ++ (x, p) :: elems r end.

(** The same tree after a caller has rewritten payloads in place. *)
Fixpoint tmap (f : loc → P → P) (t : tree P) : tree P :=
  match t with
  | Nil => Nil
  | T l x p r => T (tmap f l) x (f x p) (tmap f r)
  end.

(** A tree that only ever branches to the left. *)
Fixpoint left_chain (t : tree P) : Prop :=
  match t with Nil => True | T l _ _ r => r = Nil ∧ left_chain l end.

End shape_more.

(** ** The word counter of [main/wordcount.go] *)

(** [type stringcount struct { str string; count int64 }].  Every node
    owns the one [stringcount] its [Payload] points to, so the record is
    kept in the node. *)
Record stringcount := mkStringcount {
  str : string;
  count : Z;
}.

(** [int64] arithmetic wraps around. *)
Definition wrap64 (z : Z) : Z := ((z + 2 ^ 63) mod 2 ^ 64 - 2 ^ 63)%Z.

(** [fmt.Println(count, str)]: the two operands in their default format,
    a space between them and a newline after. *)
Definition newline : string := String (Ascii.ascii_of_nat 10) EmptyString.
Definition Println (c : Z) (w : string) : string :=
  NilZero.string_of_int (Z.to_int c) +:+ " " +:+ w +:+ newline.

(** [func nodeWalk(n *btree.Node)]: the visitor's state is what was
    written to standard output so far.  The traversals only pass nodes
    they have just read from the store. *)
Definition nodeWalk : WalkFunc stringcount string :=
  λ n s,
    match s.1 !! n with
    | Some nd => (s.1, s.2 +:+ Println (count (Payload nd)) (str (Payload nd)))
    | None => s
    end.

(** [func lessFunc(a, b *btree.Node) bool]: Go's [<] on strings compares
    them byte by byte. *)
Definition lessFunc : LessFunc stringcount :=
  λ a b, String.ltb (str (Payload a)) (str (Payload b)).

(** [count++] on the [stringcount] behind [intree.Payload] *)
Definition incr (p : stringcount) : stringcount :=
  {| str := str p; count := wrap64 (count p + 1) |}.

(** The body of the scanner loop of [main], for the word [w] that
    [sc.Text()] returned. *)
Definition count_word (fuel : nat) (w : string)
    (s : BTree stringcount * gmap loc (Node stringcount))
    : option (BTree stringcount * gmap loc (Node stringcount)) :=
  match UpsertPayload fuel {| str := w; count := 0 |} s with
  | Some (b', h', (intree, _)) =>
    match h' !! intree with
    | Some nd =>
      Some (b', <[intree := mkNode (incr (Payload nd)) (Left nd) (Right nd)]> h')
    | None => None
    end
  | None => None
  end.

Fixpoint count_words (fuel : nat) (ws : list string)
    (s : BTree stringcount * gmap loc (Node stringcount))
    : option (BTree stringcount * gmap loc (Node stringcount)) :=
  match ws with
  | [] => Some s
  | w :: ws' =>
    match count_word fuel w s with
    | Some s' => count_words fuel ws' s'
    | None => None
    end
  end.

(** How [main] ends: normally, with what it wrote to standard output, or
    in [log.Fatalln] with its message (the logger's time stamp left
    out). *)
Inductive outcome :=
  | Exit (stdout : string)
  | Fatal (message : string).

Definition usage : string :=
  "Usage: wordcount (reads from stdin, shows words and their frequencies)".

(** [func main()], given [os.Args] and the words the scanner splits
    standard input into. *)
Definition main (fuel : nat) (args words : list string) : option outcome :=
  if negb (length args =? 1) then Some (Fatal usage)
  else
    match count_words fuel words (New lessFunc, ∅) with
    | Some (b, h) =>
      match DepthFirstInOrder fuel b nodeWalk (h, EmptyString) with
      | Some (_, out) => Some (Exit out)
      | None => None
      end
    | None => None
    end.

(** How often [w] occurs among [ws]. *)
Definition occurrences (w : string) (ws : list string) : nat :=
  length (filter (λ v, v = w) ws).

(** The lines [nodeWalk] writes for the payloads [es], one after the
    other. *)
Definition report (es : list stringcount) : string :=
  foldl (λ out e, out +:+ Println (count e) (str e)) EmptyString es.

(** The tree holds one payload for every word of [done] and for nothing
    else, each with the number of times the word occurs in [done], as an
    [int64]. *)
Definition tallied (done : list string) (t : tree stringcount) : Prop :=
  (∀ p, p ∈ payloads t →
     str p ∈ done ∧ count p = wrap64 (Z.of_nat (occurrences (str p) done)))
  ∧ (∀ w, w ∈ done → ∃ p, p ∈ payloads t ∧ str p = w).

(** ** Stores and shapes *)

Section shape_facts.
Context {P : Type}.
Implicit Types (h : gmap loc (Node P)) (t l r : tree P) (x n : loc) (p q : P).

Lemma root_of_None t : root_of t = None → t = Nil.
Proof. by destruct t. Qed.

Lemma heap_tree_frame h h' t :
  (∀ x, x ∈ inorder t → h' !! x = h !! x) → heap_tree h t → heap_tree h' t.
Proof.
  induction t as [|l IHl x p r IHr]; simpl; [done|].
  intros Hsame (Hx & Hl & Hr). split_and!.
  - rewrite Hsame; [done|]. set_solver.
  - apply IHl; [|done]. intros y Hy. apply Hsame. set_solver.
  - apply IHr; [|done]. intros y Hy. apply Hsame. set_solver.
Qed.

Lemma heap_tree_dom h t x : heap_tree h t → x ∈ inorder t → x ∈ dom h.
Proof.
  induction t as [|l IHl y p r IHr]; simpl; [set_solver|].
  intros (Hy & Hl & Hr) Hin.
  apply elem_of_app in Hin as [Hin|Hin]; [by apply IHl|].
  apply elem_of_cons in Hin as [->|Hin]; [|by apply IHr].
  apply elem_of_dom. by eexists.
Qed.

Lemma heap_tree_payloads h t :
  heap_tree h t → payload_at h <$> inorder t = Some <$> payloads t.
Proof.
  induction t as [|l IHl y p r IHr]; simpl; [done|].
  intros (Hy & Hl & Hr). rewrite !fmap_app, !fmap_cons, IHl, IHr by done.
  assert (payload_at h y = Some p) as -> by (unfold payload_at; by rewrite Hy).
  done.
Qed.

Lemma reverse_order_perm t : reverse_order t ≡ₚ inorder t.
Proof.
  destruct t as [|l x p r]; simpl; [done|].
  rewrite <-!Permutation_middle. by rewrite (comm app).
Qed.

Lemma StronglySorted_lookup {A} (R : relation A) (xs : list A) i j a c :
  StronglySorted R xs → i < j → xs !! i = Some a → xs !! j = Some c → R a c.
Proof.
  intros Hxs. revert i j. induction Hxs as [|x xs Hxs IH Hall]; intros i j Hij.
  - by rewrite lookup_nil.
  - destruct j as [|j]; [lia|]. destruct i as [|i]; simpl.
    + intros [= ->] Hc. rewrite Forall_forall in Hall. apply Hall.
      by eapply list_elem_of_lookup_2.
    + apply IH. lia.
Qed.

Lemma heap_tree_lookup h t x :
  heap_tree h t → x ∈ inorder t →
  ∃ m, h !! x = Some m ∧ Payload m ∈ payloads t.
Proof.
  induction t as [|l IHl y p r IHr]; simpl; [set_solver|].
  intros (Hy & Hl & Hr) Hin.
  apply elem_of_app in Hin as [Hin|Hin].
  { destruct (IHl Hl Hin) as (m & Hm & Hp). exists m. set_solver. }
  apply elem_of_cons in Hin as [->|Hin].
  { eexists. split; [done|]. set_solver. }
  destruct (IHr Hr Hin) as (m & Hm & Hp). exists m. set_solver.
Qed.

(** The store determines the tree below a root. *)
Lemma heap_tree_unique h t t' :
  heap_tree h t → heap_tree h t' → root_of t = root_of t' → t = t'.
Proof.
  revert t'. induction t as [|l IHl y p r IHr]; intros t'; simpl.
  - intros _ _ Hroot. symmetry in Hroot. by apply root_of_None in Hroot.
  - intros (Hy & Hl & Hr). destruct t' as [|l' y' p' r']; [done|]. simpl.
    intros (Hy' & Hl' & Hr') [= <-]. rewrite Hy in Hy'.
    injection Hy' as <- Hrl Hrr. f_equal; [by apply IHl|by apply IHr].
Qed.

Lemma length_inorder_size h t :
  heap_tree h t → NoDup (inorder t) → length (inorder t) ≤ size h.
Proof.
  intros Ht Hnd. rewrite <-size_dom, <-(size_list_to_set (C := gset loc)) by done.
  apply subseteq_size. intros x Hx. apply elem_of_list_to_set in Hx.
  by eapply heap_tree_dom.
Qed.

Lemma length_inorder t : length (inorder t) = length (payloads t).
Proof.
  induction t as [|l IHl y p r IHr]; simpl; [done|].
  rewrite !length_app. simpl. lia.
Qed.

Lemma height_le_length t : height t ≤ length (inorder t).
Proof.
  induction t as [|l IHl y p r IHr]; simpl; [done|].
  rewrite length_app. simpl. lia.
Qed.

End shape_facts.

(** ** [upsertFrom] on any store *)

Section upsert_facts.
Context {P : Type}.
Variable less : LessFunc P.
Implicit Types (h : gmap loc (Node P)) (t l r : tree P) (x n : loc) (p q : P).

Lemma upsertFrom_S k h from n :
  upsertFrom (S k) less h from n =
  match h !! from, h !! n with
  | Some c, Some m =>
    if less c m then
      match Left c with
      | None => Some (<[from := setLeft c n]> h, (n, true))
      | Some l => upsertFrom k less h l n
      end
    else if less m c then
      match Right c with
      | None => Some (<[from := setRight c n]> h, (n, true))
      | Some r => upsertFrom k less h r n
      end
    else Some (h, (from, false))
  | _, _ => None
  end.
Proof. done. Qed.

Lemma upsertFrom_rule fuel h from n res :
  upsertFrom fuel less h from n = Some res → branch_rule less h n from res.
Proof.
  revert from. induction fuel as [|k IH]; intros from; simpl; [done|].
  destruct (h !! from) as [c|] eqn:Hc; [|done].
  destruct (h !! n) as [m|] eqn:Hm; [|done].
  destruct (less c m) eqn:Hcm.
  - destruct (Left c) as [l|] eqn:Hl.
    + intros Hup. eapply rule_left_descend; eauto.
    + intros [= <-]. eapply rule_left_place; eauto.
  - destruct (less m c) eqn:Hmc.
    + destruct (Right c) as [r|] eqn:Hr.
      * intros Hup. eapply rule_right_descend; eauto.
      * intros [= <-]. eapply rule_right_place; eauto.
    + intros [= <-]. eapply rule_stop; eauto.
Qed.

(** Where [less] never holds both ways the rule leaves no choice, and
    [upsertFrom] computes what it prescribes. *)
Lemma rule_upsertFrom h from n res :
  (∀ a b, less a b = true → less b a = false) →
  branch_rule less h n from res →
  ∃ fuel, upsertFrom fuel less h from n = Some res.
Proof.
  intros Hasym. induction 1 as
    [cur c m Hc Hm Hcm Hl|cur c m l res Hc Hm Hcm Hl _ [k IH]
    |cur c m Hc Hm Hmc Hr|cur c m r res Hc Hm Hmc Hr _ [k IH]
    |cur c m Hc Hm Hcm Hmc].
  - exists 1. simpl. by rewrite Hc, Hm, Hcm, Hl.
  - exists (S k). simpl. by rewrite Hc, Hm, Hcm, Hl.
  - exists 1. simpl. by rewrite Hc, Hm, (Hasym _ _ Hmc), Hmc, Hr.
  - exists (S k). simpl. by rewrite Hc, Hm, (Hasym _ _ Hmc), Hmc, Hr.
  - exists 1. simpl. by rewrite Hc, Hm, Hcm, Hmc.
Qed.

Lemma upsertFrom_total fuel h t from n m :
  heap_tree h t → root_of t = Some from → h !! n = Some m → height t ≤ fuel →
  ∃ h' x i, upsertFrom fuel less h from n = Some (h', (x, i))
            ∧ if i then x = n else x ∈ inorder t.
Proof.
  revert fuel from.
  induction t as [|l IHl y q r IHr]; intros fuel from; simpl; [done|].
  intros (Hy & Hl & Hr) [= <-] Hn Hfuel.
  destruct fuel as [|k]; [lia|]. simpl. rewrite Hy, Hn. simpl.
  destruct (less _ m).
  - destruct (root_of l) as [lx|] eqn:Hroot.
    + destruct (IHl k lx) as (h' & x & i & -> & Hx); [done..|lia|].
      exists h', x, i. split; [done|]. destruct i; [done|set_solver].
    + by eexists _, n, true.
  - destruct (less m _).
    + destruct (root_of r) as [rx|] eqn:Hroot.
      * destruct (IHr k rx) as (h' & x & i & -> & Hx); [done..|lia|].
        exists h', x, i. split; [done|]. destruct i; [done|set_solver].
      * by eexists _, n, true.
    + eexists h, y, false. split; [done|]. set_solver.
Qed.

Lemma upsertFrom_found fuel h from n h' x :
  upsertFrom fuel less h from n = Some (h', (x, false)) → h' = h.
Proof.
  revert from. induction fuel as [|k IH]; intros from; simpl; [done|].
  destruct (h !! from) as [c|]; [|done]. destruct (h !! n) as [m|]; [|done].
  destruct (less c m).
  - destruct (Left c); [apply IH|done].
  - destruct (less m c); [|by intros [= ->]].
    destruct (Right c); [apply IH|done].
Qed.

(** More budget does not change an answer. *)
Lemma upsertFrom_mono fuel fuel' h from n res :
  upsertFrom fuel less h from n = Some res → fuel ≤ fuel' →
  upsertFrom fuel' less h from n = Some res.
Proof.
  revert fuel' from. induction fuel as [|k IH]; intros fuel' from; [done|].
  intros Hup Hle. destruct fuel' as [|k']; [lia|].
  rewrite upsertFrom_S in *.
  destruct (h !! from) as [c|]; [|done]. destruct (h !! n) as [m|]; [|done].
  destruct (less c m).
  - destruct (Left c); [|done]. apply IH; [done|lia].
  - destruct (less m c); [|done].
    destruct (Right c); [|done]. apply IH; [done|lia].
Qed.

Lemma upsertFrom_extends fuel h from n h' res :
  upsertFrom fuel less h from n = Some (h', res) →
  ∀ y nd, h !! y = Some nd → ∃ nd', h' !! y = Some nd' ∧ extends nd nd'.
Proof.
  revert from. induction fuel as [|k IH]; intros from; simpl; [done|].
  destruct (h !! from) as [c|] eqn:Hc; [|done].
  destruct (h !! n) as [m|]; [|done].
  assert (∀ y nd, h !! y = Some nd → ∃ nd', h !! y = Some nd' ∧ extends nd nd')
    as Hsame by (intros y nd Hy; by exists nd).
  destruct (less c m).
  - destruct (Left c) eqn:Hl; [apply IH|]. intros [= <- <-] y nd Hy.
    destruct (decide (y = from)) as [->|Hne].
    + rewrite lookup_insert_eq. eexists. split; [done|].
      assert (nd = c) as -> by congruence. split_and!; [done| |done].
      intros l. by rewrite Hl.
    + rewrite lookup_insert_ne; [|done]. by apply Hsame.
  - destruct (less m c); [|by intros [= <- <-]].
    destruct (Right c) eqn:Hr; [apply IH|]. intros [= <- <-] y nd Hy.
    destruct (decide (y = from)) as [->|Hne].
    + rewrite lookup_insert_eq. eexists. split; [done|].
      assert (nd = c) as -> by congruence. split_and!; [done|done|].
      intros r. by rewrite Hr.
    + rewrite lookup_insert_ne; [|done]. by apply Hsame.
Qed.

End upsert_facts.

Lemma Upsert_mono {P} fuel fuel' (b : BTree P) h n res :
  Upsert fuel b h n = Some res → fuel ≤ fuel' →
  Upsert fuel' b h n = Some res.
Proof.
  unfold Upsert. destruct (Root b) as [root|]; [|done].
  destruct (upsertFrom fuel _ _ _ _) as [[h' r]|] eqn:Hup; [|done].
  intros [= <-] Hle. by rewrite (upsertFrom_mono _ _ _ _ _ _ _ Hup Hle).
Qed.


(** ** Upserting an equivalent payload again *)

Section again.
Context {P : Type}.
Variable lt : P → P → bool.
Variable less : LessFunc P.
Hypothesis less_payload : ∀ a b, less a b = lt (Payload a) (Payload b).
Hypothesis lt_swo : StrictWeakOrder lt.
Implicit Types (h : gmap loc (Node P)) (x n : loc) (p q : P).

Lemma equivalent_sym p q : equivalent lt p q = equivalent lt q p.
Proof. unfold equivalent. apply andb_comm. Qed.

Lemma equivalent_true p q :
  equivalent lt p q = true ↔ lt p q = false ∧ lt q p = false.
Proof. unfold equivalent. rewrite andb_true_iff, !negb_true_iff. done. Qed.

Lemma equivalent_lt_r p q s :
  equivalent lt p q = true → lt s p = lt s q.
Proof.
  assert (∀ p q, equivalent lt p q = true → lt s p = true → lt s q = true)
    as Hone.
  { clear p q. intros p q Hpq Hsp. destruct (lt s q) eqn:Hsq; [done|].
    destruct (lt q s) eqn:Hqs.
    - apply equivalent_true in Hpq as [_ Hqp].
      by rewrite (swo_trans lt lt_swo q s p Hqs Hsp) in Hqp.
    - assert (equivalent lt q s = true) as Hes by by apply equivalent_true.
      pose proof (swo_equiv_trans lt lt_swo p q s Hpq Hes) as Hps.
      apply equivalent_true in Hps as [_ Hps]. congruence. }
  intros Hpq. apply eq_true_iff_eq. split; apply Hone; [done|].
  by rewrite equivalent_sym.
Qed.

Lemma equivalent_lt_l p q s :
  equivalent lt p q = true → lt p s = lt q s.
Proof.
  assert (∀ p q, equivalent lt p q = true → lt p s = true → lt q s = true)
    as Hone.
  { clear p q. intros p q Hpq Hps. destruct (lt q s) eqn:Hqs; [done|].
    destruct (lt s q) eqn:Hsq.
    - apply equivalent_true in Hpq as [Hpq _].
      by rewrite (swo_trans lt lt_swo p s q Hps Hsq) in Hpq.
    - assert (equivalent lt q s = true) as Hes by by apply equivalent_true.
      pose proof (swo_equiv_trans lt lt_swo p q s Hpq Hes) as Hes'.
      apply equivalent_true in Hes' as [Hes' _]. congruence. }
  intros Hpq. apply eq_true_iff_eq. split; apply Hone; [done|].
  by rewrite equivalent_sym.
Qed.

(** After [n1] was upserted from [from], upserting a node [n2] with an
    equivalent payload follows the same path and stops at the node the
    first call returned. *)
Lemma upsertFrom_again fuel h from n1 n2 m1 m2 h1 x i :
  h !! n1 = Some m1 → h !! n2 = Some m2 →
  equivalent lt (Payload m1) (Payload m2) = true →
  upsertFrom fuel less h from n1 = Some (h1, (x, i)) →
  upsertFrom (S fuel) less h1 from n2 = Some (h1, (x, false)).
Proof.
  intros Hn1 Hn2 Heq. revert from.
  induction fuel as [|k IH]; intros from; [done|].
  intros Hup.
  destruct (upsertFrom_extends less _ _ _ _ _ _ Hup n1 m1 Hn1)
    as (m1' & Hn1' & Hp1 & _).
  destruct (upsertFrom_extends less _ _ _ _ _ _ Hup n2 m2 Hn2)
    as (m2' & Hn2' & Hp2 & _).
  pose proof (upsertFrom_extends less _ _ _ _ _ _ Hup from) as Hfrom.
  rewrite upsertFrom_S in Hup. rewrite (upsertFrom_S less (S k)).
  rewrite Hn1 in Hup.
  destruct (h !! from) as [c|] eqn:Hc; [|done].
  destruct (Hfrom c eq_refl) as (c' & Hc' & Hpc & Hcl & Hcr).
  rewrite less_payload in Hup. rewrite (less_payload m1) in Hup.
  rewrite Hc', Hn2', !less_payload, Hpc, Hp2.
  rewrite <-(equivalent_lt_r _ _ (Payload c) Heq).
  rewrite <-(equivalent_lt_l _ _ (Payload c) Heq).
  destruct (lt (Payload c) (Payload m1)) eqn:Hcm.
  - destruct (Left c) as [l|] eqn:Hl.
    + rewrite (Hcl l eq_refl). by apply IH.
    + injection Hup as <- <- <-. rewrite lookup_insert_eq in Hc'.
      assert (c' = setLeft c n1) as -> by congruence.
      change (Left (setLeft c n1)) with (Some n1). cbv iota.
      rewrite upsertFrom_S, Hn1', Hn2', !less_payload, Hp1, Hp2.
      apply equivalent_true in Heq as [-> ->]. done.
  - destruct (lt (Payload m1) (Payload c)) eqn:Hmc.
    + destruct (Right c) as [r|] eqn:Hr.
      * rewrite (Hcr r eq_refl). by apply IH.
      * injection Hup as <- <- <-. rewrite lookup_insert_eq in Hc'.
        assert (c' = setRight c n1) as -> by congruence.
        change (Right (setRight c n1)) with (Some n1). cbv iota.
        rewrite upsertFrom_S, Hn1', Hn2', !less_payload, Hp1, Hp2.
        apply equivalent_true in Heq as [-> ->]. done.
    + by injection Hup as <- <- <-.
Qed.

End again.

(** ** [upsertFrom] on a represented tree *)

Section upsert_shape.
Context {P : Type}.
Variable lt : P → P → bool.
Variable less : LessFunc P.
(** The comparison looks at the payloads only. *)
Hypothesis less_payload : ∀ a b, less a b = lt (Payload a) (Payload b).
Implicit Types (h : gmap loc (Node P)) (t l r : tree P) (x n : loc) (p q : P).

Lemma ins_root t n p x :
  root_of t = Some x → root_of (ins lt t n p).1 = Some x.
Proof.
  destruct t as [|l y q r]; simpl; [done|]. intros [= ->].
  destruct (lt q p); [by destruct (ins lt l n p)|].
  destruct (lt p q); [by destruct (ins lt r n p)|done].
Qed.

Lemma upsertFrom_ins fuel h t from n p :
  heap_tree h t → root_of t = Some from → NoDup (inorder t) →
  n ∉ inorder t → h !! n = Some (mkNode p None None) → height t ≤ fuel →
  ∃ h', upsertFrom fuel less h from n = Some (h', (ins lt t n p).2)
        ∧ heap_tree h' (ins lt t n p).1
        ∧ (∀ y, y ∉ inorder t → h' !! y = h !! y).
Proof.
  revert fuel from.
  induction t as [|l IHl x q r IHr]; intros fuel from; simpl; [done|].
  intros (Hx & Hl & Hr) [= <-] Hnd Hn Hnew Hfuel.
  apply NoDup_app in Hnd as (Hndl & Hlx & Hnd).
  apply NoDup_cons in Hnd as (Hxr & Hndr).
  destruct fuel as [|k]; [lia|]. simpl.
  rewrite Hx, Hnew, less_payload, less_payload. simpl.
  assert (n ≠ x) as Hnx by set_solver.
  destruct (lt q p) eqn:Hqp.
  - destruct (root_of l) as [lx|] eqn:Hroot.
    + destruct (IHl k lx) as (h' & Hup & Hh' & Hfr);
        [done|done|done|set_solver|done|lia|].
      pose proof (ins_root l n p lx Hroot) as Hroot'.
      destruct (ins lt l n p) as [l' res]. simpl in *.
      exists h'. split; [done|]. split; [split; [|split]|].
      * rewrite Hfr; [|set_solver]. by rewrite Hx, Hroot'.
      * done.
      * apply (heap_tree_frame h); [|done]. intros y Hy. apply Hfr. set_solver.
      * intros y Hy. apply Hfr. set_solver.
    + apply root_of_None in Hroot as ->. simpl.
      eexists. split; [done|]. simpl. split; [split; [|split]|].
      * by rewrite lookup_insert_eq.
      * by rewrite lookup_insert_ne.
      * apply (heap_tree_frame h); [|done].
        intros y Hy. rewrite lookup_insert_ne; [done|]. by intros ->.
      * intros y Hy. rewrite lookup_insert_ne; [done|]. set_solver.
  - destruct (lt p q) eqn:Hpq.
    + destruct (root_of r) as [rx|] eqn:Hroot.
      * destruct (IHr k rx) as (h' & Hup & Hh' & Hfr);
          [done|done|done|set_solver|done|lia|].
        pose proof (ins_root r n p rx Hroot) as Hroot'.
        destruct (ins lt r n p) as [r' res]. simpl in *.
        exists h'. split; [done|]. split; [split; [|split]|].
        -- rewrite Hfr; [|set_solver]. by rewrite Hx, Hroot'.
        -- apply (heap_tree_frame h); [|done]. intros y Hy. apply Hfr. set_solver.
        -- done.
        -- intros y Hy. apply Hfr. set_solver.
      * apply root_of_None in Hroot as ->. simpl.
        eexists. split; [done|]. simpl. split; [split; [|split]|].
        -- by rewrite lookup_insert_eq.
        -- apply (heap_tree_frame h); [|done].
           intros y Hy. rewrite lookup_insert_ne; [done|]. set_solver.
        -- by rewrite lookup_insert_ne.
        -- intros y Hy. rewrite lookup_insert_ne; [done|]. set_solver.
    + eexists. split; [done|]. simpl. done.
Qed.

(** Whatever node carries the payload, the path and the answer are those
    of [ins]. *)
Lemma upsertFrom_path fuel h t from n m :
  heap_tree h t → root_of t = Some from → h !! n = Some m → height t ≤ fuel →
  ∃ h', upsertFrom fuel less h from n = Some (h', (ins lt t n (Payload m)).2).
Proof.
  revert fuel from.
  induction t as [|l IHl x q r IHr]; intros fuel from; simpl; [done|].
  intros (Hx & Hl & Hr) [= <-] Hn Hfuel.
  destruct fuel as [|k]; [lia|]. simpl.
  rewrite Hx, Hn, !less_payload. simpl.
  destruct (lt q (Payload m)).
  - destruct (root_of l) as [lx|] eqn:Hroot.
    + destruct (IHl k lx) as (h' & ->); [done..|lia|].
      exists h'. by destruct (ins lt l n (Payload m)).
    + apply root_of_None in Hroot as ->. by eexists.
  - destruct (lt (Payload m) q).
    + destruct (root_of r) as [rx|] eqn:Hroot.
      * destruct (IHr k rx) as (h' & ->); [done..|lia|].
        exists h'. by destruct (ins lt r n (Payload m)).
      * apply root_of_None in Hroot as ->. by eexists.
    + by eexists.
Qed.

End upsert_shape.

(** ** What insertion does to the shape *)

Section ins_facts.
Context {P : Type}.
Variable lt : P → P → bool.
Implicit Types (t l r : tree P) (x n : loc) (p q : P).

Lemma ins_inserted t n p :
  (ins lt t n p).2.2 = true →
  (ins lt t n p).2.1 = n
  ∧ inorder (ins lt t n p).1 ≡ₚ n :: inorder t
  ∧ payloads (ins lt t n p).1 ≡ₚ p :: payloads t.
Proof.
  induction t as [|l IHl x q r IHr]; simpl; [done|].
  destruct (lt q p).
  - destruct (ins lt l n p) as [l' res]. simpl in *.
    intros Hres. destruct (IHl Hres) as (-> & Hi & Hp). split; [done|].
    by rewrite Hi, Hp.
  - destruct (lt p q); [|done].
    destruct (ins lt r n p) as [r' res]. simpl in *.
    intros Hres. destruct (IHr Hres) as (-> & Hi & Hp). split; [done|].
    rewrite Hi, Hp. split.
    + by rewrite <-!Permutation_middle, Permutation_swap.
    + by rewrite <-!Permutation_middle, Permutation_swap.
Qed.

Lemma ins_found t n p :
  (ins lt t n p).2.2 = false →
  (ins lt t n p).1 = t
  ∧ (ins lt t n p).2.1 ∈ inorder t
  ∧ ∃ q, q ∈ payloads t ∧ equivalent lt p q = true.
Proof.
  induction t as [|l IHl x q r IHr]; simpl; [done|].
  destruct (lt q p) eqn:Hqp.
  - destruct (ins lt l n p) as [l' res]. simpl in *.
    intros Hres. destruct (IHl Hres) as (-> & Hi & q' & Hq' & He).
    split; [done|]. split; [set_solver|]. exists q'. split; [set_solver|done].
  - destruct (lt p q) eqn:Hpq.
    + destruct (ins lt r n p) as [r' res]. simpl in *.
      intros Hres. destruct (IHr Hres) as (-> & Hi & q' & Hq' & He).
      split; [done|]. split; [set_solver|]. exists q'. split; [set_solver|done].
    + intros _. simpl. split; [done|]. split; [set_solver|].
      exists q. split; [set_solver|]. unfold equivalent. by rewrite Hqp, Hpq.
Qed.

Lemma ins_ordered t n p : ordered lt t → ordered lt (ins lt t n p).1.
Proof.
  induction t as [|l IHl x q r IHr]; simpl; [done|].
  intros (Hl & Hr & Hol & Hor).
  destruct (lt q p) eqn:Hqp.
  - specialize (IHl Hol).
    pose proof (ins_inserted l n p) as Hi. pose proof (ins_found l n p) as Hf.
    destruct (ins lt l n p) as [l' [y [|]]]; simpl in *.
    + destruct Hi as (_ & _ & Hp); [done|].
      split_and!; [|done..]. rewrite Hp. by constructor.
    + destruct Hf as (-> & _); done.
  - destruct (lt p q) eqn:Hpq; [|done]. specialize (IHr Hor).
    pose proof (ins_inserted r n p) as Hi. pose proof (ins_found r n p) as Hf.
    destruct (ins lt r n p) as [r' [y [|]]]; simpl in *.
    + destruct Hi as (_ & _ & Hp); [done|].
      split_and!; [done| |done..]. rewrite Hp. by constructor.
    + destruct Hf as (-> & _); done.
Qed.

Section transitive.
Hypothesis lt_trans : ∀ p q s, lt p q = true → lt q s = true → lt p s = true.

(** An inserted payload had no equivalent in the tree. *)
Lemma ins_inserted_new t n p :
  ordered lt t → (ins lt t n p).2.2 = true →
  Forall (λ q, equivalent lt p q = false) (payloads t).
Proof.
  induction t as [|l IHl x q r IHr]; simpl; [constructor|].
  intros (Hl & Hr & Hol & Hor).
  destruct (lt q p) eqn:Hqp.
  - destruct (ins lt l n p) as [l' res]. simpl in *.
    intros Hres. apply Forall_app. split; [by apply IHl|].
    constructor.
    + unfold equivalent. rewrite Hqp. by rewrite andb_false_r.
    + eapply Forall_impl; [exact Hr|]. simpl. intros s Hs.
      unfold equivalent. rewrite (lt_trans s q p Hs Hqp).
      by rewrite andb_false_r.
  - destruct (lt p q) eqn:Hpq; [|done].
    destruct (ins lt r n p) as [r' res]. simpl in *.
    intros Hres. apply Forall_app. split.
    + eapply Forall_impl; [exact Hl|]. simpl. intros s Hs.
      unfold equivalent. by rewrite (lt_trans p q s Hpq Hs).
    + constructor; [|by apply IHr].
      unfold equivalent. by rewrite Hpq.
Qed.

(** In-order, the payloads of an ordered tree go down. *)
Lemma ordered_descending t :
  ordered lt t → StronglySorted (λ a b, lt b a = true) (payloads t).
Proof.
  induction t as [|l IHl x q r IHr]; simpl; [constructor|].
  intros (Hl & Hr & Hol & Hor).
  apply StronglySorted_app_2; [|by apply IHl|].
  - intros a b Ha Hb. rewrite Forall_forall in Hl, Hr.
    apply elem_of_cons in Hb as [->|Hb]; [by apply Hl|].
    eapply lt_trans; [by apply Hr|by apply Hl].
  - constructor; [by apply IHr|done].
Qed.

End transitive.
End ins_facts.

(** ** Traversals of a represented tree *)

Section walk_facts.
Context {P : Type}.
Implicit Types (h : gmap loc (Node P)) (t l r : tree P) (x n : loc) (p q : P).

Lemma heap_tree_links h t : heap_tree h t → link_tree (links h) t.
Proof.
  induction t as [|l IHl y p r IHr]; simpl; [done|].
  intros (Hy & Hl & Hr). split_and!; [|by apply IHl|by apply IHr].
  unfold links. by rewrite lookup_fmap, Hy.
Qed.

Lemma links_lookup h x (lr : option loc * option loc) :
  links h !! x = Some lr →
  ∃ nd, h !! x = Some nd ∧ Left nd = lr.1 ∧ Right nd = lr.2.
Proof.
  unfold links. rewrite lookup_fmap. destruct (h !! x) as [nd|]; [|done].
  intros [= <-]. by exists nd.
Qed.

Lemma record_visit_eq x h (tr : list loc) :
  record_visit x (h, tr) = (h, tr ++ [x]).
Proof. done. Qed.

Lemma walk_all_app {W} (walk : WalkFunc P W) s xs ys :
  walk_all walk s (xs ++ ys) = walk_all walk (walk_all walk s xs) ys.
Proof. apply foldl_app. Qed.

Lemma walk_all_cons {W} (walk : WalkFunc P W) s x xs :
  walk_all walk s (x :: xs) = walk_all walk (walk x s) xs.
Proof. done. Qed.

Lemma walk_all_preserves {W A} (f : gmap loc (Node P) → A)
    (walk : WalkFunc P W) :
  (∀ n s, f (walk n s).1 = f s.1) →
  ∀ s xs, f (walk_all walk s xs).1 = f s.1.
Proof.
  intros Hwalk s xs. revert s. induction xs as [|x xs IH]; intros s; [done|].
  by rewrite walk_all_cons, IH.
Qed.

(** A visitor that leaves the links alone is called on the nodes of the
    tree one after the other, each call seeing what the previous one
    left behind. *)
Section visitor.
Context {W : Type}.
Variable walk : WalkFunc P W.
Hypothesis walk_links : ∀ n s, links (walk n s).1 = links s.1.

Lemma walk_all_links s xs : links (walk_all walk s xs).1 = links s.1.
Proof. by apply walk_all_preserves. Qed.

Lemma inorder_fold fuel t x s :
  link_tree (links s.1) t → root_of t = Some x → height t ≤ fuel →
  depthFirstInOrderFrom fuel x walk s = Some (walk_all walk s (inorder t)).
Proof.
  revert fuel x s.
  induction t as [|l IHl y p r IHr]; intros fuel x s; simpl; [done|].
  intros (Hy & Hl & Hr) [= <-] Hfuel.
  destruct fuel as [|k]; [lia|]. simpl.
  destruct (links_lookup _ _ _ Hy) as (nd & -> & HL & HR). simpl in *.
  rewrite HL.
  assert (match root_of l with
          | Some l0 => depthFirstInOrderFrom k l0 walk s
          | None => Some s
          end = Some (walk_all walk s (inorder l))) as ->.
  { destruct (root_of l) as [lx|] eqn:Hroot.
    - apply IHl; [done..|lia].
    - by apply root_of_None in Hroot as ->. }
  set (s1 := walk_all walk s (inorder l)).
  assert (links (walk y s1).1 = links s.1) as Hs2.
  { unfold s1. by rewrite walk_links, walk_all_links. }
  rewrite <-Hs2 in Hy, Hr.
  destruct (links_lookup _ _ _ Hy) as (nd2 & -> & _ & HR2). simpl in *.
  rewrite HR2, walk_all_app, walk_all_cons. fold s1.
  destruct (root_of r) as [rx|] eqn:Hroot.
  - rewrite (IHr k rx); [done|done..|lia].
  - by apply root_of_None in Hroot as ->.
Qed.

Lemma reverse_fold fuel l y p r s :
  link_tree (links s.1) (T l y p r) → height (T l y p r) ≤ fuel →
  depthFirstReverseFrom fuel y walk s
  = Some (walk_all walk s (inorder r ++ y :: inorder l)).
Proof.
  simpl. intros (Hy & Hl & Hr) Hfuel.
  destruct fuel as [|k]; [lia|]. simpl.
  destruct (links_lookup _ _ _ Hy) as (nd & -> & HL & HR). simpl in *.
  rewrite HR.
  assert (match root_of r with
          | Some r0 => depthFirstInOrderFrom k r0 walk s
          | None => Some s
          end = Some (walk_all walk s (inorder r))) as ->.
  { destruct (root_of r) as [rx|] eqn:Hroot.
    - apply inorder_fold; [done..|lia].
    - by apply root_of_None in Hroot as ->. }
  set (s1 := walk_all walk s (inorder r)).
  assert (links (walk y s1).1 = links s.1) as Hs2.
  { unfold s1. by rewrite walk_links, walk_all_links. }
  rewrite <-Hs2 in Hy, Hl.
  destruct (links_lookup _ _ _ Hy) as (nd2 & -> & HL2 & _). simpl in *.
  rewrite HL2, walk_all_app, walk_all_cons. fold s1.
  destruct (root_of l) as [lx|] eqn:Hroot.
  - rewrite (inorder_fold k l lx); [done|done..|lia].
  - by apply root_of_None in Hroot as ->.
Qed.

End visitor.

Lemma walk_all_record h (tr xs : list loc) :
  walk_all record_visit (h, tr) xs = (h, tr ++ xs).
Proof.
  revert tr. induction xs as [|x xs IH]; intros tr; simpl.
  - by rewrite app_nil_r.
  - unfold walk_all in *. simpl. rewrite record_visit_eq, IH.
    by rewrite <-app_assoc.
Qed.

Lemma inorder_visits fuel h t x tr :
  heap_tree h t → root_of t = Some x → height t ≤ fuel →
  depthFirstInOrderFrom fuel x record_visit (h, tr) = Some (h, tr ++ inorder t).
Proof.
  intros Ht Hroot Hfuel. rewrite <-walk_all_record.
  apply inorder_fold; [done| |done..]. by apply heap_tree_links.
Qed.

Lemma reverse_visits fuel h l y p r tr :
  heap_tree h (T l y p r) → height (T l y p r) ≤ fuel →
  depthFirstReverseFrom fuel y record_visit (h, tr)
  = Some (h, tr ++ inorder r ++ y :: inorder l).
Proof.
  intros Ht Hfuel. rewrite <-walk_all_record.
  apply (reverse_fold record_visit (λ _ _, eq_refl) fuel l y p r); [|done].
  by apply (heap_tree_links h (T l y p r)).
Qed.

(** Whatever the visitor leaves alone, the traversals leave alone. *)
Lemma inorder_preserves {W A} (f : gmap loc (Node P) → A) (walk : WalkFunc P W) :
  (∀ n s, f (walk n s).1 = f s.1) →
  ∀ fuel n s s', depthFirstInOrderFrom fuel n walk s = Some s' → f s'.1 = f s.1.
Proof.
  intros Hwalk. induction fuel as [|k IH]; intros n s s'; simpl; [done|].
  destruct (s.1 !! n) as [nd|]; [|done].
  assert (∀ s1, match Left nd with
                | Some l => depthFirstInOrderFrom k l walk s
                | None => Some s
                end = Some s1 → f s1.1 = f s.1) as Hleft.
  { intros s1. destruct (Left nd); [apply IH|by intros [= ->]]. }
  destruct (match Left nd with Some l => _ | None => _ end) as [s1|]; [|done].
  rewrite <-(Hleft s1 eq_refl), <-(Hwalk n s1).
  destruct ((walk n s1).1 !! n) as [nd2|]; [|done].
  destruct (Right nd2); [apply IH|by intros [= ->]].
Qed.

Lemma reverse_preserves {W A} (f : gmap loc (Node P) → A) (walk : WalkFunc P W) :
  (∀ n s, f (walk n s).1 = f s.1) →
  ∀ fuel n s s', depthFirstReverseFrom fuel n walk s = Some s' → f s'.1 = f s.1.
Proof.
  intros Hwalk. intros [|k] n s s'; simpl; [done|].
  destruct (s.1 !! n) as [nd|]; [|done].
  assert (∀ s1, match Right nd with
                | Some r => depthFirstInOrderFrom k r walk s
                | None => Some s
                end = Some s1 → f s1.1 = f s.1) as Hright.
  { intros s1. destruct (Right nd); [by apply inorder_preserves|by intros [= ->]]. }
  destruct (match Right nd with Some r => _ | None => _ end) as [s1|]; [|done].
  rewrite <-(Hright s1 eq_refl), <-(Hwalk n s1).
  destruct ((walk n s1).1 !! n) as [nd2|]; [|done].
  destruct (Left nd2); [by apply inorder_preserves|by intros [= ->]].
Qed.

End walk_facts.

(** ** Dropping equivalent payloads *)

Section distinct_facts.
Context {P : Type}.
Variable lt : P → P → bool.
Implicit Types (p q : P) (ps kept : list P).

Lemma existsb_elem_of {A} (f : A → bool) (l : list A) :
  existsb f l = true ↔ ∃ a, a ∈ l ∧ f a = true.
Proof.
  rewrite existsb_exists. split; intros (a & Ha & Hf); exists a;
    (split; [by apply list_elem_of_In|done]).
Qed.

Lemma keep_distinct_prefix ps : ∀ kept,
  ∃ more, foldl (keep_distinct lt) kept ps = kept ++ more
          ∧ ∀ q, q ∈ more → q ∈ ps.
Proof.
  induction ps as [|p ps IH]; intros kept; simpl.
  { exists []. split; [by rewrite app_nil_r|set_solver]. }
  unfold keep_distinct at 2. destruct (existsb _ kept).
  - destruct (IH kept) as (more & -> & Hsub). exists more. set_solver.
  - destruct (IH (kept ++ [p])) as (more & -> & Hsub).
    exists (p :: more). rewrite <-app_assoc. set_solver.
Qed.

(** Nothing is kept that was not given. *)
Lemma distinct_under_sub ps q : q ∈ distinct_under lt ps → q ∈ ps.
Proof.
  unfold distinct_under.
  destruct (keep_distinct_prefix ps []) as (more & -> & Hsub). set_solver.
Qed.

(** Every payload given has an equivalent among those kept. *)
Lemma keep_distinct_covers ps : ∀ kept p,
  (∀ p, lt p p = false) → p ∈ ps →
  ∃ q, q ∈ foldl (keep_distinct lt) kept ps ∧ equivalent lt p q = true.
Proof.
  induction ps as [|p' ps IH]; intros kept p Hirr Hp; [set_solver|].
  apply elem_of_cons in Hp as [->|Hp]; [|by apply IH].
  simpl. destruct (keep_distinct_prefix ps (keep_distinct lt kept p'))
    as (more & -> & _).
  unfold keep_distinct. destruct (existsb _ kept) eqn:Hex.
  - apply existsb_elem_of in Hex as (q & Hq & He). exists q. set_solver.
  - exists p'. split; [set_solver|]. unfold equivalent. by rewrite Hirr.
Qed.

Lemma distinct_under_covers ps p :
  (∀ p, lt p p = false) → p ∈ ps →
  ∃ q, q ∈ distinct_under lt ps ∧ equivalent lt p q = true.
Proof. apply keep_distinct_covers. Qed.

(** No payload kept is equivalent to one kept before it. *)
Lemma keep_distinct_sorted ps : ∀ kept,
  StronglySorted (λ a c, equivalent lt c a = false) kept →
  StronglySorted (λ a c, equivalent lt c a = false)
    (foldl (keep_distinct lt) kept ps).
Proof.
  induction ps as [|p ps IH]; intros kept Hkept; [done|].
  simpl. apply IH. unfold keep_distinct.
  destruct (existsb _ kept) eqn:Hex; [done|].
  apply StronglySorted_app_2; [|done|repeat constructor].
  intros a c Ha ->%list_elem_of_singleton.
  apply not_true_is_false. intros He.
  assert (existsb (equivalent lt p) kept = true) as Hex'; [|congruence].
  apply existsb_elem_of. eauto.
Qed.

Lemma distinct_under_sorted ps :
  StronglySorted (λ a c, equivalent lt c a = false) (distinct_under lt ps).
Proof. apply keep_distinct_sorted. constructor. Qed.

End distinct_facts.

(** ** Trees built by upserting new nodes *)

Section built_facts.
Context {P : Type}.
Variable lt : P → P → bool.
Variable less : LessFunc P.
Hypothesis less_payload : ∀ a b, less a b = lt (Payload a) (Payload b).
Implicit Types (h : gmap loc (Node P)) (t l r : tree P) (x n : loc) (p q : P).

Lemma keep_distinct_perm (kept kept' : list P) p :
  kept ≡ₚ kept' → keep_distinct lt kept p ≡ₚ keep_distinct lt kept' p.
Proof.
  intros Hperm. unfold keep_distinct.
  assert (existsb (equivalent lt p) kept = existsb (equivalent lt p) kept') as ->.
  { apply eq_true_iff_eq. rewrite !existsb_elem_of.
    by setoid_rewrite Hperm. }
  destruct (existsb _ kept'); [done|]. by rewrite Hperm.
Qed.

Lemma foldl_keep_distinct_perm ps (kept kept' : list P) :
  kept ≡ₚ kept' →
  foldl (keep_distinct lt) kept ps ≡ₚ foldl (keep_distinct lt) kept' ps.
Proof.
  revert kept kept'. induction ps as [|p ps IH]; intros kept kept' Hperm; [done|].
  simpl. apply IH. by apply keep_distinct_perm.
Qed.

Lemma Upsert_rep fuel b h t n p :
  Less b = less → rep b h t → n ∉ inorder t →
  h !! n = Some (mkNode p None None) → height t ≤ fuel →
  ∃ b' h', Upsert fuel b h n = Some (b', h', (ins lt t n p).2)
           ∧ Less b' = less
           ∧ rep b' h' (ins lt t n p).1
           ∧ (∀ y, y ∉ inorder t → h' !! y = h !! y).
Proof.
  intros Hless [Hroot Hheap Hnd] Hn Hnew Hfuel. unfold Upsert.
  destruct (Root b) as [root|] eqn:Hb.
  - destruct (upsertFrom_ins lt less less_payload fuel h t root n p)
      as (h' & Hup & Hh' & Hfr); [done..|].
    rewrite Hless, Hup. exists b, h'. split; [done|]. split; [done|].
    split; [|done]. split.
    + rewrite Hb. symmetry. by apply ins_root.
    + done.
    + pose proof (ins_inserted lt t n p) as Hi.
      pose proof (ins_found lt t n p) as Hf.
      destruct (ins lt t n p) as [t' [y [|]]]; simpl in *.
      * destruct Hi as (_ & -> & _); [done|]. by apply NoDup_cons.
      * by destruct Hf as (-> & _).
  - symmetry in Hroot. apply root_of_None in Hroot as ->. simpl.
    eexists _, h. split; [done|]. split; [done|]. split; [|done].
    split; simpl; [done|by rewrite Hnew|].
    apply NoDup_singleton.
Qed.

Lemma UpsertPayload_rep fuel b h t p :
  Less b = less → rep b h t → height t ≤ fuel →
  ∃ b' h',
    UpsertPayload fuel p (b, h)
    = Some (b', h', (ins lt t (fresh (dom h)) p).2)
    ∧ Less b' = less
    ∧ rep b' h' (ins lt t (fresh (dom h)) p).1.
Proof.
  intros Hless [Hroot Hheap Hnd] Hfuel. unfold UpsertPayload, NewNode. simpl.
  set (n := fresh (dom h)).
  assert (n ∉ inorder t) as Hn.
  { intros Hin. apply (is_fresh (dom h)). by eapply heap_tree_dom. }
  destruct (Upsert_rep fuel b (<[n := mkNode p None None]> h) t n p)
    as (b' & h' & Hup & Hless' & Hrep & _); [done| |done| |done|by eauto].
  - split; [done| |done]. apply (heap_tree_frame h); [|done].
    intros y Hy. rewrite lookup_insert_ne; [done|]. by intros ->.
  - by rewrite lookup_insert_eq.
Qed.

Lemma rep_New : rep (New less) ∅ Nil.
Proof. split; simpl; [done|done|constructor]. Qed.

Lemma UpsertAll_rep ps : ∀ fuel b h t,
  Less b = less → rep b h t → ordered lt t →
  length (inorder t) + length ps ≤ fuel →
  ∃ b' h' t',
    UpsertAll fuel ps (b, h) = Some (b', h')
    ∧ Less b' = less ∧ rep b' h' t' ∧ ordered lt t'
    ∧ length (inorder t') ≤ length (inorder t) + length ps
    ∧ ((∀ p q s, lt p q = true → lt q s = true → lt p s = true) →
       payloads t' ≡ₚ foldl (keep_distinct lt) (payloads t) ps).
Proof.
  induction ps as [|p ps IH]; intros fuel b h t Hless Hrep Hord Hfuel; simpl.
  { exists b, h, t. split_and!; [done..|lia|done]. }
  simpl in Hfuel. pose proof (height_le_length t) as Hht.
  destruct (UpsertPayload_rep fuel b h t p) as (b1 & h1 & -> & Hless1 & Hrep1);
    [done|done|lia|].
  set (n := fresh (dom h)) in *.
  pose proof (ins_inserted lt t n p) as Hi.
  pose proof (ins_found lt t n p) as Hf.
  pose proof (ins_ordered lt t n p Hord) as Hord1.
  pose proof (λ Htr, ins_inserted_new lt Htr t n p Hord) as Hnew.
  destruct (ins lt t n p) as [t1 [y ins1]]; simpl in *.
  assert (length (inorder t1) ≤ S (length (inorder t))) as Hlen.
  { destruct ins1.
    - destruct Hi as (_ & Hi & _); [done|]. by rewrite Hi.
    - destruct Hf as (-> & _); [done|]. lia. }
  destruct (IH fuel b1 h1 t1)
    as (b' & h' & t' & Hall & Hless' & Hrep' & Hord' & Hlen' & Hp);
    [done|done|done|lia|].
  exists b', h', t'. split; [done|]. split; [done|]. split; [done|].
  split; [done|]. split; [lia|]. intros Htr. rewrite (Hp Htr).
  apply foldl_keep_distinct_perm. unfold keep_distinct.
  destruct ins1.
  - destruct Hi as (_ & _ & Hi); [done|]. rewrite Hi.
    assert (existsb (equivalent lt p) (payloads t) = false) as ->.
    { apply not_true_is_false. rewrite existsb_elem_of. intros (a & Ha & He).
      specialize (Hnew Htr eq_refl). rewrite Forall_forall in Hnew.
      rewrite (Hnew a Ha) in He. done. }
    by rewrite Permutation_cons_append.
  - destruct Hf as (-> & _ & q & Hq & He); [done|].
    assert (existsb (equivalent lt p) (payloads t) = true) as ->; [|done].
    apply existsb_elem_of. eauto.
Qed.

Lemma UpsertAll_built ps : ∀ fuel b h b' h',
  UpsertAll fuel ps (b, h) = Some (b', h') →
  built less b h → built less b' h'.
Proof.
  induction ps as [|p ps IH]; intros fuel b h b' h'; simpl.
  { by intros [= <- <-]. }
  unfold UpsertPayload, NewNode. simpl.
  destruct (Upsert _ _ _ _) as [[[b1 h1] res]|] eqn:Hup; [|done].
  intros Hall Hb. apply (IH _ _ _ _ _ Hall).
  eapply built_Upsert; [by apply (built_NewNode less b h p)| |done].
  simpl. by rewrite lookup_insert_eq.
Qed.

Section strict.
Hypothesis lt_irrefl : ∀ p, lt p p = false.
Hypothesis lt_trans : ∀ p q s, lt p q = true → lt q s = true → lt p s = true.

(** A payload with an equivalent in an ordered tree is found, not
    inserted. *)
Lemma ins_present t n p q :
  ordered lt t → q ∈ payloads t → equivalent lt p q = true →
  (ins lt t n p).2.2 = false.
Proof.
  intros Hord Hq Heq. apply not_true_is_false. intros Hins.
  pose proof (ins_inserted_new lt lt_trans t n p Hord Hins) as Hnew.
  rewrite Forall_forall in Hnew. rewrite (Hnew q Hq) in Heq. done.
Qed.

(** What holds of every built tree: the store lays out an ordered tree
    without repeated nodes, and every node outside it has no children. *)
Lemma built_inv b h :
  built less b h →
  Less b = less
  ∧ ∃ t, rep b h t ∧ ordered lt t
         ∧ ∀ y m, h !! y = Some m → y ∉ inorder t →
                  m = mkNode (Payload m) None None.
Proof.
  induction 1 as [|b h p _ (Hless & t & Hrep & Hord & Hout)
                  |b h n m fuel b' h' res _ (Hless & t & Hrep & Hord & Hout) Hn Hup].
  - split; [done|]. exists Nil. split; [apply rep_New|]. split; [done|].
    intros y m. by rewrite lookup_empty.
  - split; [done|]. exists t. destruct Hrep as [Hroot Hheap Hnd].
    unfold NewNode. simpl. set (n := fresh (dom h)).
    assert (n ∉ inorder t) as Hnt.
    { intros Hin. apply (is_fresh (dom h)). by eapply heap_tree_dom. }
    split; [|split; [done|]].
    + split; [done| |done]. apply (heap_tree_frame h); [|done].
      intros y Hy. rewrite lookup_insert_ne; [done|]. by intros ->.
    + intros y m. destruct (decide (y = n)) as [->|Hne].
      * rewrite lookup_insert_eq. by intros [= <-].
      * rewrite lookup_insert_ne by done. apply Hout.
  - pose proof (height_le_length t) as Hht.
    apply (Upsert_mono fuel (fuel `max` height t)) in Hup; [|lia].
    destruct (decide (n ∈ inorder t)) as [Hin|Hnin].
    + destruct Hrep as [Hroot Hheap Hnd].
      destruct (heap_tree_lookup h t n Hheap Hin) as (m' & Hm' & Hp).
      assert (m' = m) as -> by congruence.
      assert ((ins lt t n (Payload m)).2.2 = false) as Hfound.
      { apply (ins_present t n _ (Payload m)); [done..|].
        unfold equivalent. by rewrite lt_irrefl. }
      assert (b' = b ∧ h' = h) as [-> ->].
      { revert Hup. unfold Upsert. destruct (Root b) as [root|] eqn:Hb.
        - destruct (upsertFrom_path lt less less_payload
                      (fuel `max` height t) h t root n m)
            as (h1 & Hpath); [done|congruence|done|lia|].
          rewrite Hless, Hpath.
          destruct (ins lt t n (Payload m)) as [t1 [x i]]. simpl in *. subst i.
          intros [= <- <- <-]. split; [done|].
          by eapply upsertFrom_found.
        - symmetry in Hroot. apply root_of_None in Hroot. subst t. by apply elem_of_nil in Hin. }
      split; [done|]. by exists t.
    + pose proof (Hout n m Hn Hnin) as Hleaf. rewrite Hleaf in Hn.
      destruct (Upsert_rep (fuel `max` height t) b h t n (Payload m))
        as (b1 & h1 & Hup1 & Hless1 & Hrep1 & Hfr); [done..|lia|].
      rewrite Hup1 in Hup. injection Hup as <- <- <-.
      split; [done|]. exists (ins lt t n (Payload m)).1.
      split; [done|]. split; [by apply ins_ordered|].
      intros y m1 Hy Hyt.
      pose proof (ins_inserted lt t n (Payload m)) as Hi.
      pose proof (ins_found lt t n (Payload m)) as Hf.
      destruct (ins lt t n (Payload m)) as [t1 [x [|]]]; simpl in *.
      * destruct Hi as (_ & Hi & _); [done|]. rewrite Hi in Hyt.
        apply not_elem_of_cons in Hyt as [Hyn Hyt].
        rewrite Hfr in Hy by done. by apply (Hout y).
      * destruct Hf as (-> & _); [done|].
        rewrite Hfr in Hy by done. by apply (Hout y).
Qed.

(** On a built tree [Upsert] returns for every allocated node. *)
Lemma built_Upsert_returns b h n m fuel :
  built less b h → h !! n = Some m → size h ≤ fuel →
  ∃ res, Upsert fuel b h n = Some res.
Proof.
  intros (Hless & t & [Hroot Hheap Hnd] & _)%built_inv Hn Hfuel.
  unfold Upsert. destruct (Root b) as [root|] eqn:Hb; [|by eexists].
  destruct (upsertFrom_total (Less b) fuel h t root n m)
    as (h' & x & i & -> & _); [done|congruence|done| |by eexists].
  pose proof (height_le_length t). pose proof (length_inorder_size h t Hheap Hnd).
  lia.
Qed.

End strict.
End built_facts.

(** ** Integer payloads under [<] *)

Lemma lessZ_payload (a b : Node Z) : lessZ a b = (Payload a <? Payload b)%Z.
Proof. done. Qed.

Lemma Zltb_trans (p q s : Z) :
  (p <? q)%Z = true → (q <? s)%Z = true → (p <? s)%Z = true.
Proof. rewrite !Z.ltb_lt. lia. Qed.

Lemma Zltb_swo : StrictWeakOrder Z.ltb.
Proof.
  split.
  - intros p. apply Z.ltb_irrefl.
  - apply Zltb_trans.
  - intros p q s. unfold equivalent.
    rewrite !andb_true_iff, !negb_true_iff, !Z.ltb_ge. lia.
Qed.

Lemma rep_538 : rep tree5 store538 shape538.
Proof.
  split.
  - reflexivity.
  - simpl. repeat split; reflexivity.
  - simpl. repeat constructor; set_solver.
Qed.

Lemma built_538 : built lessZ tree5 store538.
Proof.
  apply (UpsertAll_built lessZ [5; 3; 8]%Z 3 (New lessZ) ∅).
  - vm_compute. reflexivity.
  - constructor.
Qed.

(** * The claims *)

Section claims.
Context {P : Type}.
Implicit Types (b : BTree P) (h : gmap loc (Node P)) (t : tree P).
Implicit Types (x n : loc) (p q : P).

(** C1. On a non-empty tree [Upsert] returns, and what it returns is what
    the branch rule of the specification prescribes from the root:
    [less(cur, n)] goes to [cur.Left], [less(n, cur)] to [cur.Right],
    neither stops with [(cur, false)]; an absent slot receives [n] and the
    answer is [(n, true)].  [Upsert] tries the cases in that order. *)
Theorem Upsert_branch_rule b h t n m fuel root :
  heap_tree h t → root_of t = Some root → Root b = Some root →
  h !! n = Some m → height t ≤ fuel →
  ∃ h' res, Upsert fuel b h n = Some (b, h', res)
            ∧ branch_rule (Less b) h n root (h', res).
Proof.
  intros Ht Hroot Hb Hn Hfuel. unfold Upsert. rewrite Hb.
  destruct (upsertFrom_total (Less b) fuel h t root n m)
    as (h' & x & i & Hup & _); [done..|].
  rewrite Hup. exists h', (x, i). split; [done|].
  by eapply upsertFrom_rule.
Qed.

(** C8. An [Upsert] that answers [inserted = false] leaves the tree as it
    was: the same root, and every node with the same fields. *)
Theorem Upsert_found_unchanged fuel b h n b' h' x :
  Upsert fuel b h n = Some (b', h', (x, false)) → b' = b ∧ h' = h.
Proof.
  unfold Upsert. destruct (Root b) as [root|]; [|done].
  destruct (upsertFrom fuel (Less b) h root n) as [[h1 [y i]]|] eqn:Hup; [|done].
  intros [= <- <- <- ->]. split; [done|]. by eapply upsertFrom_found.
Qed.

(** C9. A tree is [Empty] (no root) or [Populated] (a root).  An [Upsert]
    on an empty tree inserts and populates it; a step from [Empty] to
    [Populated] is such an [Upsert]; and no run of [Upsert]s and
    traversals takes a populated tree back to [Empty]. *)
Theorem tree_states (W : Type) :
  (∀ b, (state_of b = Empty ∧ Root b = None)
        ∨ (state_of b = Populated ∧ ∃ root, Root b = Some root))
  ∧ (∀ fuel b h n, state_of b = Empty →
       ∃ b', Upsert fuel b h n = Some (b', h, (n, true))
             ∧ state_of b' = Populated)
  ∧ (∀ fuel (o : op P W) s s',
       step fuel o s = Some s' →
       state_of s.1 = Empty → state_of s'.1 = Populated →
       ∃ n, o = OpUpsert n
            ∧ Upsert fuel s.1 s.2.1 n = Some (s'.1, s'.2.1, (n, true)))
  ∧ (∀ fuel (os : list (op P W)) s s',
       run fuel os s = Some s' →
       state_of s.1 = Populated → state_of s'.1 = Populated).
Proof.
  assert (∀ fuel (o : op P W) s s', step fuel o s = Some s' →
            state_of s.1 = Populated → state_of s'.1 = Populated) as Hstep.
  { intros fuel [n|walk|walk] [b [h w]] s'; simpl.
    - unfold Upsert, state_of. destruct (Root b) as [root|] eqn:Hb; [|done].
      destruct (upsertFrom _ _ _ _ _) as [[h' r]|]; [|done].
      intros [= <-]. simpl. by rewrite Hb.
    - destruct (DepthFirstInOrder _ _ _ _); [|done]. by intros [= <-].
    - destruct (DepthFirstReverse _ _ _ _); [|done]. by intros [= <-]. }
  split_and!.
  - intros b. unfold state_of. destruct (Root b); eauto.
  - intros fuel b h n. unfold state_of, Upsert.
    destruct (Root b); [done|]. intros _. by eexists.
  - intros fuel [n|walk|walk] [b [h w]] s'; simpl.
    + unfold state_of, Upsert. destruct (Root b); [done|].
      intros [= <-] _ _. by exists n.
    + destruct (DepthFirstInOrder _ _ _ _); [|done]. intros [= <-]. simpl.
      by intros ->.
    + destruct (DepthFirstReverse _ _ _ _); [|done]. intros [= <-]. simpl.
      by intros ->.
  - intros fuel os. induction os as [|o os IH]; intros s s'; simpl.
    + by intros [= <-].
    + destruct (step fuel o s) as [s1|] eqn:Hs1; [|done].
      intros Hrun Hpop. apply (IH s1 s' Hrun). by eapply Hstep.
Qed.

(** C10. The traversals write no link: with a visitor that leaves [Left]
    and [Right] of every node alone, [DepthFirstInOrder] and
    [DepthFirstReverse] return on every tree, having called the visitor
    along the visit sequence and nothing else, and every node's [Left]
    and [Right] are as before; a visitor that writes nothing to the store
    gets the store back unchanged.  (Neither method assigns [b.Root];
    the tree value is not part of what they return.) *)
Theorem traversals_read_only {W : Type} (walk : WalkFunc P W) fuel b t s :
  (∀ n s, links (walk n s).1 = links s.1) →
  link_tree (links s.1) t → Root b = root_of t → height t ≤ fuel →
  ∃ s1 s2,
    DepthFirstInOrder fuel b walk s = Some s1
    ∧ DepthFirstReverse fuel b walk s = Some s2
    ∧ s1 = walk_all walk s (inorder t)
    ∧ s2 = walk_all walk s (reverse_order t)
    ∧ links s1.1 = links s.1 ∧ links s2.1 = links s.1
    ∧ ((∀ n s, (walk n s).1 = s.1) → s1.1 = s.1 ∧ s2.1 = s.1).
Proof.
  intros Hwalk Ht Hroot Hfuel. unfold DepthFirstInOrder, DepthFirstReverse.
  rewrite Hroot. destruct t as [|l x p r].
  { simpl. by exists s, s. }
  cbn [root_of reverse_order].
  rewrite (inorder_fold walk Hwalk fuel (T l x p r) x s); [|done..].
  rewrite (reverse_fold walk Hwalk fuel l x p r s); [|done..].
  eexists _, _. split; [done|]. split; [done|].
  split; [done|]. split; [done|].
  rewrite !walk_all_links; [|done..]. split; [done|]. split; [done|].
  intros Hstore.
  by rewrite !(walk_all_preserves (λ h, h) walk Hstore).
Qed.

(** C4. On a non-empty tree [DepthFirstReverse] swaps the two sides at the
    root only: it yields what the in-order step yields on the root's right
    child, then the root, then what the in-order step yields on the root's
    left child.  Every node of the tree is visited exactly once. *)
Theorem reverse_only_at_root b h l x p r fuel :
  rep b h (T l x p r) → height (T l x p r) ≤ fuel →
  (∀ rx, root_of r = Some rx →
     depthFirstInOrderFrom fuel rx record_visit (h, []) = Some (h, inorder r))
  ∧ (∀ lx, root_of l = Some lx →
       depthFirstInOrderFrom fuel lx record_visit (h, []) = Some (h, inorder l))
  ∧ DepthFirstReverse fuel b record_visit (h, [])
    = Some (h, inorder r ++ x :: inorder l)
  ∧ NoDup (inorder r ++ x :: inorder l)
  ∧ inorder r ++ x :: inorder l ≡ₚ inorder (T l x p r).
Proof.
  intros [Hroot Hheap Hnd] Hfuel.
  assert (inorder r ++ x :: inorder l ≡ₚ inorder (T l x p r)) as Hperm.
  { simpl. rewrite <-!Permutation_middle. by rewrite (comm app). }
  pose proof Hheap as (Hx & Hl & Hr). simpl in Hfuel.
  split_and!.
  - intros rx Hrx. apply (inorder_visits fuel h r rx []); [done..|lia].
  - intros lx Hlx. apply (inorder_visits fuel h l lx []); [done..|lia].
  - unfold DepthFirstReverse. rewrite Hroot. cbn [root_of].
    by apply (reverse_visits fuel h l x p r []).
  - by rewrite Hperm.
  - done.
Qed.

(** C2, as the code has it.  In every tree built by [Upsert] calls on
    allocated nodes, under an irreflexive and transitive [less] on the
    payloads: at every node the payloads below [Left] are greater than
    the node's and the payloads below [Right] are less, and no two nodes
    hold equivalent payloads. *)
Theorem Upsert_keeps_order (lt : P → P → bool) (less : LessFunc P) b h :
  (∀ a c, less a c = lt (Payload a) (Payload c)) →
  (∀ p, lt p p = false) →
  (∀ p q s, lt p q = true → lt q s = true → lt p s = true) →
  built less b h →
  ∃ t, rep b h t ∧ ordered lt t
       ∧ ∀ i j a c, i ≠ j →
           payloads t !! i = Some a → payloads t !! j = Some c →
           equivalent lt a c = false.
Proof.
  intros Hless Hirr Htrans Hbuilt.
  destruct (built_inv lt less Hless Hirr Htrans b h Hbuilt)
    as (_ & t & Hrep & Hord & _).
  exists t. split; [done|]. split; [done|].
  pose proof (ordered_descending lt Htrans t Hord) as Hdesc.
  intros i j a c Hij Ha Hc. unfold equivalent.
  destruct (decide (i < j)) as [Hlt|Hge].
  - rewrite (StronglySorted_lookup _ _ i j a c Hdesc Hlt Ha Hc).
    by rewrite andb_false_r.
  - rewrite (StronglySorted_lookup _ _ j i c a Hdesc ltac:(lia) Hc Ha). done.
Qed.

(** C5. On every tree built by [Upsert] calls on allocated nodes, under an
    irreflexive and transitive [less] on the payloads, [DepthFirstInOrder]
    returns, having visited left subtree, node, right subtree at every
    level, and the payloads in visit order go down: each one is less than
    all those visited before it. *)
Theorem inorder_descending (lt : P → P → bool) (less : LessFunc P) b h fuel :
  (∀ a c, less a c = lt (Payload a) (Payload c)) →
  (∀ p, lt p p = false) →
  (∀ p q s, lt p q = true → lt q s = true → lt p s = true) →
  built less b h → size h ≤ fuel →
  ∃ t, rep b h t
       ∧ DepthFirstInOrder fuel b record_visit (h, []) = Some (h, inorder t)
       ∧ payload_at h <$> inorder t = Some <$> payloads t
       ∧ StronglySorted (λ a c, lt c a = true) (payloads t).
Proof.
  intros Hless Hirr Htrans Hbuilt Hfuel.
  destruct (built_inv lt less Hless Hirr Htrans b h Hbuilt)
    as (_ & t & Hrep & Hord & _).
  exists t. split; [done|]. destruct Hrep as [Hroot Hheap Hnd]. split_and!.
  - unfold DepthFirstInOrder. rewrite Hroot.
    destruct (root_of t) as [x|] eqn:Hx.
    + apply (inorder_visits fuel h t x []); [done..|].
      pose proof (height_le_length t).
      pose proof (length_inorder_size h t Hheap Hnd). lia.
    + by apply root_of_None in Hx as ->.
  - by apply heap_tree_payloads.
  - by apply ordered_descending.
Qed.

(** C6. After upserting a new node for each payload of [ps] under a
    transitive [less], both traversals return; each calls the visitor on
    every node of the tree once and on nothing else, and the payloads it
    meets are, up to order, the payloads of [ps] with every payload
    equivalent to an earlier kept one dropped. *)
Theorem traversal_visits_distinct (lt : P → P → bool) (less : LessFunc P) ps fuel :
  (∀ a c, less a c = lt (Payload a) (Payload c)) →
  (∀ p q s, lt p q = true → lt q s = true → lt p s = true) →
  length ps ≤ fuel →
  ∃ b h t,
    UpsertAll fuel ps (New less, ∅) = Some (b, h)
    ∧ rep b h t
    ∧ DepthFirstInOrder fuel b record_visit (h, []) = Some (h, inorder t)
    ∧ DepthFirstReverse fuel b record_visit (h, []) = Some (h, reverse_order t)
    ∧ NoDup (inorder t) ∧ NoDup (reverse_order t)
    ∧ reverse_order t ≡ₚ inorder t
    ∧ payload_at h <$> inorder t ≡ₚ Some <$> distinct_under lt ps
    ∧ payload_at h <$> reverse_order t ≡ₚ Some <$> distinct_under lt ps.
Proof.
  intros Hless Htrans Hfuel.
  destruct (UpsertAll_rep lt less Hless ps fuel (New less) ∅ Nil)
    as (b & h & t & Hall & _ & Hrep & Hord & Hlen & Hp);
    [done|apply rep_New|done|simpl; lia|].
  exists b, h, t. split; [done|]. split; [done|].
  destruct Hrep as [Hroot Hheap Hnd].
  pose proof (height_le_length t) as Hht. simpl in Hlen.
  assert (payload_at h <$> inorder t ≡ₚ Some <$> distinct_under lt ps) as Hpay.
  { rewrite (heap_tree_payloads h t Hheap). by rewrite (Hp Htrans). }
  split_and!.
  - unfold DepthFirstInOrder. rewrite Hroot.
    destruct (root_of t) as [x|] eqn:Hx.
    + apply (inorder_visits fuel h t x []); [done..|lia].
    + by apply root_of_None in Hx as ->.
  - unfold DepthFirstReverse. rewrite Hroot.
    destruct t as [|l x p r]; [done|]. cbn [root_of reverse_order].
    apply (reverse_visits fuel h l x p r []); [done|lia].
  - done.
  - by rewrite reverse_order_perm.
  - apply reverse_order_perm.
  - done.
  - by rewrite reverse_order_perm.
Qed.

End claims.

(** ** The claims at concrete trees *)

Lemma Upsert_branch_rule_witness :
  ∃ h' res, Upsert 1 tree5 store4 2%positive = Some (tree5, h', res)
            ∧ branch_rule lessZ store4 2%positive 1%positive (h', res).
Proof.
  apply (Upsert_branch_rule tree5 store4 shape5
           2%positive (mkNode 3%Z None None) 1 1%positive).
  - simpl. split; [reflexivity|split; exact I].
  - reflexivity.
  - reflexivity.
  - reflexivity.
  - simpl. lia.
Defined.

Lemma Upsert_found_unchanged_witness :
  Upsert 1 tree5 store4 4%positive = Some (tree5, store4, (1%positive, false))
  ∧ tree5 = tree5 ∧ store4 = store4.
Proof.
  split; [reflexivity|].
  apply (Upsert_found_unchanged 1 tree5 store4 4%positive tree5 store4 1%positive).
  reflexivity.
Defined.

Lemma tree_states_witness :
  (∃ n, OpUpsert (P := Z) (W := list loc) 1%positive = OpUpsert n
        ∧ Upsert 1 (New lessZ) store4 n = Some (tree5, store4, (n, true)))
  ∧ state_of tree5 = Populated.
Proof.
  split.
  - apply (proj1 (proj2 (proj2 (tree_states (list loc)))) 1
             (OpUpsert 1%positive)
             (New lessZ, (store4, [])) (tree5, (store4, []))); reflexivity.
  - apply (proj2 (proj2 (proj2 (tree_states (list loc)))) 2
             [OpInOrder record_visit; OpReverse record_visit]
             (tree5, (store538, []))
             (tree5, (store538, [3; 1; 2; 2; 1; 3]%positive))); reflexivity.
Defined.

Lemma traversals_read_only_witness :
  ∃ s1 s2,
    DepthFirstInOrder 2 tree5 record_visit (store538, []) = Some s1
    ∧ DepthFirstReverse 2 tree5 record_visit (store538, []) = Some s2
    ∧ s1 = walk_all record_visit (store538, []) (inorder shape538)
    ∧ s2 = walk_all record_visit (store538, []) (reverse_order shape538)
    ∧ links s1.1 = links store538 ∧ links s2.1 = links store538
    ∧ ((∀ n (s : gmap loc (Node Z) * list loc), (record_visit n s).1 = s.1) →
       s1.1 = store538 ∧ s2.1 = store538).
Proof.
  apply (traversals_read_only record_visit 2 tree5 shape538 (store538, [])).
  - intros n s. reflexivity.
  - simpl. repeat split; reflexivity.
  - reflexivity.
  - simpl. lia.
Defined.

Lemma reverse_only_at_root_witness :
  (∀ rx, root_of (T Nil 2%positive 3%Z Nil) = Some rx →
     depthFirstInOrderFrom 2 rx record_visit (store538, [])
     = Some (store538, [2%positive]))
  ∧ (∀ lx, root_of (T Nil 3%positive 8%Z Nil) = Some lx →
       depthFirstInOrderFrom 2 lx record_visit (store538, [])
       = Some (store538, [3%positive]))
  ∧ DepthFirstReverse 2 tree5 record_visit (store538, [])
    = Some (store538, [2; 1; 3]%positive)
  ∧ NoDup [2; 1; 3]%positive
  ∧ [2; 1; 3]%positive ≡ₚ [3; 1; 2]%positive.
Proof.
  apply (reverse_only_at_root tree5 store538
           (T Nil 3%positive 8%Z Nil) 1%positive 5%Z
           (T Nil 2%positive 3%Z Nil) 2 rep_538).
  simpl. lia.
Defined.

Lemma Upsert_keeps_order_witness :
  ∃ t, rep tree5 store538 t ∧ ordered Z.ltb t
       ∧ ∀ i j a c, i ≠ j →
           payloads t !! i = Some a → payloads t !! j = Some c →
           equivalent Z.ltb a c = false.
Proof.
  apply (Upsert_keeps_order Z.ltb lessZ tree5 store538).
  - intros a c. reflexivity.
  - intros p. apply Z.ltb_irrefl.
  - intros p q s. rewrite !Z.ltb_lt. lia.
  - exact built_538.
Defined.

Lemma inorder_descending_witness :
  ∃ t, rep tree5 store538 t
       ∧ DepthFirstInOrder 3 tree5 record_visit (store538, [])
         = Some (store538, inorder t)
       ∧ payload_at store538 <$> inorder t = Some <$> payloads t
       ∧ StronglySorted (λ a c, (c <? a)%Z = true) (payloads t).
Proof.
  apply (inorder_descending Z.ltb lessZ tree5 store538 3).
  - intros a c. reflexivity.
  - intros p. apply Z.ltb_irrefl.
  - intros p q s. rewrite !Z.ltb_lt. lia.
  - exact built_538.
  - vm_compute. lia.
Defined.

Lemma traversal_visits_distinct_witness :
  ∃ b h t,
    UpsertAll 4 [5; 3; 8; 3]%Z (New lessZ, ∅) = Some (b, h)
    ∧ rep b h t
    ∧ DepthFirstInOrder 4 b record_visit (h, []) = Some (h, inorder t)
    ∧ DepthFirstReverse 4 b record_visit (h, []) = Some (h, reverse_order t)
    ∧ NoDup (inorder t) ∧ NoDup (reverse_order t)
    ∧ reverse_order t ≡ₚ inorder t
    ∧ payload_at h <$> inorder t ≡ₚ Some <$> distinct_under Z.ltb [5; 3; 8; 3]%Z
    ∧ payload_at h <$> reverse_order t
      ≡ₚ Some <$> distinct_under Z.ltb [5; 3; 8; 3]%Z.
Proof.
  apply (traversal_visits_distinct Z.ltb lessZ [5; 3; 8; 3]%Z 4).
  - intros a c. reflexivity.
  - intros p q s. rewrite !Z.ltb_lt. lia.
  - simpl. lia.
Defined.

(** ** Which side the payloads land on *)

(** C3, as the code has it.  Upserting 5, 3, 8 in that order under the
    numeric [less] leaves 5 at the root, the node holding 8 as the root's
    [Left] child and the node holding 3 as its [Right] child:
    [less(5, 8)] holds, so 8 goes to [Left]. *)
Theorem branch_assignment_5_3_8 :
  ∃ b h root nd l r,
    UpsertAll 3 [5; 3; 8]%Z (New lessZ, ∅) = Some (b, h)
    ∧ Root b = Some root ∧ h !! root = Some nd ∧ Payload nd = 5%Z
    ∧ Left nd = Some l ∧ payload_at h l = Some 8%Z
    ∧ Right nd = Some r ∧ payload_at h r = Some 3%Z.
Proof.
  exists tree5, store538, 1%positive,
    (mkNode 5%Z (Some 3%positive) (Some 2%positive)), 3%positive, 2%positive.
  repeat split; vm_compute; reflexivity.
Qed.

(** The same run does not put 3 on the left and 8 on the right. *)
Lemma branch_assignment_as_claimed_fails :
  ¬ ∃ b h root nd l r,
      UpsertAll 3 [5; 3; 8]%Z (New lessZ, ∅) = Some (b, h)
      ∧ Root b = Some root ∧ h !! root = Some nd ∧ Payload nd = 5%Z
      ∧ Left nd = Some l ∧ payload_at h l = Some 3%Z
      ∧ Right nd = Some r ∧ payload_at h r = Some 8%Z.
Proof.
  intros (b & h & root & nd & l & r & Hall & Hroot & Hnd & _ & Hl & Hpl & _).
  assert (UpsertAll 3 [5; 3; 8]%Z (New lessZ, ∅) = Some (tree5, store538))
    as Hrun by (vm_compute; reflexivity).
  rewrite Hrun in Hall. injection Hall as <- <-.
  injection Hroot as <-. vm_compute in Hnd. injection Hnd as <-.
  injection Hl as <-. vm_compute in Hpl. discriminate.
Qed.

(** After 5 and 8 the root's [Left] child holds 8, which is not less
    than 5. *)
Lemma left_child_is_not_less :
  ∃ b h root nd l c,
    UpsertAll 2 [5; 8]%Z (New lessZ, ∅) = Some (b, h)
    ∧ rep b h (T (T Nil l 8%Z Nil) root 5%Z Nil)
    ∧ h !! root = Some nd ∧ Left nd = Some l ∧ h !! l = Some c
    ∧ Payload nd = 5%Z ∧ Payload c = 8%Z ∧ lessZ c nd = false.
Proof.
  eexists _, _, 1%positive, _, 2%positive, _.
  split; [vm_compute; reflexivity|].
  split; [|repeat split; vm_compute; reflexivity].
  split; [reflexivity|simpl; repeat split; vm_compute; reflexivity|].
  simpl. repeat constructor; set_solver.
Qed.

(** Below the root [DepthFirstReverse] is not the mirror of the in-order
    walk: on the tree of 5, 3, 8, 1, 4, 7, 9 the in-order walk meets
    9 8 7 5 4 3 1 and the reverse walk 4 3 1 5 9 8 7. *)
Example reverse_is_not_mirror :
  ∃ b h vi vr,
    UpsertAll 3 [5; 3; 8; 1; 4; 7; 9]%Z (New lessZ, ∅) = Some (b, h)
    ∧ DepthFirstInOrder 3 b record_visit (h, []) = Some (h, vi)
    ∧ DepthFirstReverse 3 b record_visit (h, []) = Some (h, vr)
    ∧ payload_at h <$> vi = Some <$> [9; 8; 7; 5; 4; 3; 1]%Z
    ∧ payload_at h <$> vr = Some <$> [4; 3; 1; 5; 9; 8; 7]%Z.
Proof.
  eexists _, _, _, _. split; [vm_compute; reflexivity|].
  split; [vm_compute; reflexivity|].
  split; [vm_compute; reflexivity|].
  split; vm_compute; reflexivity.
Qed.

(** ** What the ordering contract is needed for *)

(** Without transitivity two equivalent payloads can both be inserted:
    8 goes left of 5 and 3 goes right of 5, and neither of 8 and 3 is
    less than the other. *)
Example intransitive_less_keeps_equivalents :
  ∃ b h t,
    UpsertAll 2 [5; 8; 3]%Z (New less_chain, ∅) = Some (b, h)
    ∧ rep b h t ∧ payloads t = [8; 5; 3]%Z
    ∧ equivalent lt_chain 8%Z 3%Z = true.
Proof.
  eexists _, _, (T (T Nil 2%positive 8%Z Nil) 1%positive 5%Z
                   (T Nil 3%positive 3%Z Nil)).
  split; [vm_compute; reflexivity|]. split; [|done].
  split; [reflexivity|simpl; repeat split; vm_compute; reflexivity|].
  simpl. repeat constructor; set_solver.
Qed.

(** Without irreflexivity upserting the root a second time makes it its
    own [Left] child, and no traversal returns any more. *)
Example reflexive_less_ties_a_knot :
  ∃ b h,
    run (W := list loc) 1 [OpUpsert 1%positive; OpUpsert 1%positive]
      (New less_always, (store4, [])) = Some (b, (h, []))
    ∧ h !! 1%positive = Some (mkNode 5%Z (Some 1%positive) None)
    ∧ ∀ fuel tr, DepthFirstInOrder fuel b record_visit (h, tr) = None.
Proof.
  eexists _, _. split; [vm_compute; reflexivity|].
  split; [vm_compute; reflexivity|].
  intros fuel. unfold DepthFirstInOrder. cbn [Root].
  induction fuel as [|k IH]; intros tr; [done|].
  cbn [depthFirstInOrderFrom fst].
  match goal with |- context [?m !! 1%positive] =>
    change (m !! 1%positive) with (Some (mkNode 5%Z (Some 1%positive) None))
  end.
  cbn [Left]. by rewrite IH.
Qed.

(** * More about [Upsert] *)

Section upsert_more.
Context {P : Type}.
Implicit Types (b : BTree P) (h : gmap loc (Node P)) (t : tree P).
Implicit Types (x n : loc) (p q : P).

Lemma upsertFrom_inserted (less : LessFunc P) fuel h from n h' x :
  upsertFrom fuel less h from n = Some (h', (x, true)) →
  x = n
  ∧ ∃ cur c m, h !! cur = Some c ∧ h !! n = Some m
      ∧ ((less c m = true ∧ Left c = None ∧ h' = <[cur := setLeft c n]> h)
         ∨ (less c m = false ∧ less m c = true ∧ Right c = None
            ∧ h' = <[cur := setRight c n]> h)).
Proof.
  revert from. induction fuel as [|k IH]; intros from Hup; [done|].
  rewrite upsertFrom_S in Hup.
  destruct (h !! from) as [c|] eqn:Hc; [|done].
  destruct (h !! n) as [m|] eqn:Hm; [|done].
  destruct (less c m) eqn:Hcm.
  - destruct (Left c) eqn:Hl; [by eapply IH|].
    injection Hup as <- <-. split; [done|]. exists from, c, m. eauto 10.
  - destruct (less m c) eqn:Hmc; [|done].
    destruct (Right c) eqn:Hr; [by eapply IH|].
    injection Hup as <- <-. split; [done|]. exists from, c, m. eauto 10.
Qed.

Lemma upsertFrom_found_equivalent (less : LessFunc P) fuel h from n h' x :
  upsertFrom fuel less h from n = Some (h', (x, false)) →
  ∃ c m, h !! x = Some c ∧ h !! n = Some m
         ∧ less c m = false ∧ less m c = false.
Proof.
  revert from. induction fuel as [|k IH]; intros from Hup; [done|].
  rewrite upsertFrom_S in Hup.
  destruct (h !! from) as [c|] eqn:Hc; [|done].
  destruct (h !! n) as [m|] eqn:Hm; [|done].
  destruct (less c m) eqn:Hcm.
  - destruct (Left c) eqn:Hl; [|done]. by eapply IH.
  - destruct (less m c) eqn:Hmc.
    + destruct (Right c) eqn:Hr; [|done]. by eapply IH.
    + injection Hup as <- <-. by exists c, m.
Qed.

(** An [Upsert] that answers [inserted = true] hands back its argument
    and has made exactly one assignment: [b.Root = n] on an empty tree,
    and otherwise [cur.Left = n] for a node with [Less(cur, n)] and no
    left child, or [cur.Right = n] for a node with [Less(n, cur)], not
    [Less(cur, n)], and no right child. *)
Theorem Upsert_inserted_one_write fuel b h n b' h' x :
  Upsert fuel b h n = Some (b', h', (x, true)) →
  x = n
  ∧ ((Root b = None ∧ b' = mkBTree (Some n) (Less b) ∧ h' = h)
     ∨ (b' = b ∧ ∃ cur c m, h !! cur = Some c ∧ h !! n = Some m
          ∧ ((Less b c m = true ∧ Left c = None
              ∧ h' = <[cur := setLeft c n]> h)
             ∨ (Less b c m = false ∧ Less b m c = true ∧ Right c = None
                ∧ h' = <[cur := setRight c n]> h)))).
Proof.
  unfold Upsert. destruct (Root b) as [root|] eqn:Hb.
  - destruct (upsertFrom _ _ _ _ _) as [[h1 [y i]]|] eqn:Hup; [|done].
    intros [= <- <- <- ->].
    destruct (upsertFrom_inserted _ _ _ _ _ _ _ Hup) as (-> & Hw).
    split; [done|]. right. by split.
  - intros [= <- <- <-]. split; [done|]. by left.
Qed.

(** An [Upsert] that answers [inserted = false] hands back a node that
    [Less] puts neither before nor after the argument. *)
Theorem Upsert_found_equivalent fuel b h n b' h' x :
  Upsert fuel b h n = Some (b', h', (x, false)) →
  ∃ c m, h !! x = Some c ∧ h !! n = Some m
         ∧ Less b c m = false ∧ Less b m c = false.
Proof.
  unfold Upsert. destruct (Root b) as [root|]; [|done].
  destruct (upsertFrom _ _ _ _ _) as [[h1 [y i]]|] eqn:Hup; [|done].
  intros [= <- <- <- ->]. by eapply upsertFrom_found_equivalent.
Qed.

(** [Upsert] never frees or adds a node, never changes a payload, never
    overwrites a link that is set, never replaces [Less], and never moves
    a root that is set. *)
Theorem Upsert_never_overwrites fuel b h n b' h' res :
  Upsert fuel b h n = Some (b', h', res) →
  dom h' = dom h
  ∧ (∀ y nd, h !! y = Some nd → ∃ nd', h' !! y = Some nd' ∧ extends nd nd')
  ∧ Less b' = Less b
  ∧ (∀ root, Root b = Some root → Root b' = Some root).
Proof.
  unfold Upsert. destruct (Root b) as [root|] eqn:Hb.
  - destruct (upsertFrom _ _ _ _ _) as [[h1 r]|] eqn:Hup; [|done].
    intros [= <- <- <-].
    pose proof (upsertFrom_extends _ _ _ _ _ _ _ Hup) as Hext.
    split_and!; [|done|done|by rewrite Hb].
    destruct r as [x [|]].
    + destruct (upsertFrom_inserted _ _ _ _ _ _ _ Hup)
        as (_ & cur & c & m & Hc & _ & [(_ & _ & ->)|(_ & _ & _ & ->)]);
        rewrite dom_insert_L; apply elem_of_dom_2 in Hc; set_solver.
    + by rewrite (upsertFrom_found _ _ _ _ _ _ _ Hup).
  - intros [= <- <- <-]. split_and!; [done| |done|done].
    intros y nd Hy. exists nd. by split.
Qed.

End upsert_more.

Section upsert_payload_order.
Context {P : Type}.
Variable lt : P → P → bool.
Implicit Types (b : BTree P) (h : gmap loc (Node P)) (t : tree P).
Implicit Types (x n : loc) (p q : P).

Lemma upsertFrom_same_again (less : LessFunc P) fuel h from n m h1 x i :
  (∀ a c, less a c = lt (Payload a) (Payload c)) → (∀ p, lt p p = false) →
  h !! n = Some m →
  upsertFrom fuel less h from n = Some (h1, (x, i)) →
  upsertFrom (S fuel) less h1 from n = Some (h1, (x, false)).
Proof.
  intros Hless Hirr Hn. revert from.
  induction fuel as [|k IH]; intros from; [done|].
  intros Hup.
  destruct (upsertFrom_extends less _ _ _ _ _ _ Hup n m Hn)
    as (m' & Hn' & Hp & _).
  pose proof (upsertFrom_extends less _ _ _ _ _ _ Hup from) as Hfrom.
  rewrite upsertFrom_S in Hup. rewrite (upsertFrom_S less (S k)).
  rewrite Hn in Hup.
  destruct (h !! from) as [c|] eqn:Hc; [|done].
  destruct (Hfrom c eq_refl) as (c' & Hc' & Hpc & Hcl & Hcr).
  rewrite Hless in Hup. rewrite (Hless m) in Hup.
  rewrite Hc', Hn', !Hless, Hpc, Hp.
  destruct (lt (Payload c) (Payload m)) eqn:Hcm.
  - destruct (Left c) as [l|] eqn:Hl.
    + rewrite (Hcl l eq_refl). by apply IH.
    + injection Hup as <- <- <-. rewrite lookup_insert_eq in Hc'.
      assert (c' = setLeft c n) as -> by congruence.
      change (Left (setLeft c n)) with (Some n). cbv iota.
      by rewrite upsertFrom_S, Hn', !Hless, Hirr.
  - destruct (lt (Payload m) (Payload c)) eqn:Hmc.
    + destruct (Right c) as [r|] eqn:Hr.
      * rewrite (Hcr r eq_refl). by apply IH.
      * injection Hup as <- <- <-. rewrite lookup_insert_eq in Hc'.
        assert (c' = setRight c n) as -> by congruence.
        change (Right (setRight c n)) with (Some n). cbv iota.
        by rewrite upsertFrom_S, Hn', !Hless, Hirr.
    + by injection Hup as <- <- <-.
Qed.

(** Passing the same node to [Upsert] a second time, under an irreflexive
    [less] on the payloads: the call answers [inserted = false], hands
    back the node the first call handed back and writes nothing. *)
Theorem Upsert_same_node_again b h n m fuel b1 h1 x i :
  (∀ a c, Less b a c = lt (Payload a) (Payload c)) → (∀ p, lt p p = false) →
  h !! n = Some m →
  Upsert fuel b h n = Some (b1, h1, (x, i)) →
  Upsert (S fuel) b1 h1 n = Some (b1, h1, (x, false)).
Proof.
  intros Hless Hirr Hn. unfold Upsert.
  destruct (Root b) as [root|] eqn:Hb.
  - destruct (upsertFrom fuel _ _ _ _) as [[h' [y j]]|] eqn:Hup; [|done].
    intros [= <- <- <- <-]. rewrite Hb.
    by rewrite (upsertFrom_same_again (Less b) _ _ _ _ _ _ _ _ Hless Hirr Hn Hup).
  - intros [= <- <- <- <-]. cbn [Root Less].
    by rewrite upsertFrom_S, Hn, Hless, Hirr.
Qed.

Lemma ins_height t n p : height (ins lt t n p).1 ≤ S (height t).
Proof.
  induction t as [|l IHl x q r IHr]; simpl; [lia|].
  destruct (lt q p).
  - destruct (ins lt l n p) as [l' res]. simpl in *. lia.
  - destruct (lt p q); [|simpl; lia].
    destruct (ins lt r n p) as [r' res]. simpl in *. lia.
Qed.

Lemma ins_result_in t n p : (ins lt t n p).2.1 ∈ inorder (ins lt t n p).1.
Proof.
  pose proof (ins_inserted lt t n p) as Hi.
  pose proof (ins_found lt t n p) as Hf.
  destruct (ins lt t n p) as [t' [x [|]]]; simpl in *.
  - destruct Hi as (-> & -> & _); [done|]. set_solver.
  - by destruct Hf as (-> & ? & _).
Qed.

(** One [Upsert] of a new node on any ordered tree, however the tree was
    put together: the call returns; the tree stays a tree without
    repeated nodes and stays ordered; its nodes are the old ones, and the
    new node exactly when [inserted] is true; it grows at most one level;
    and the node handed back is one of its nodes. *)
Theorem Upsert_step_on_tree (less : LessFunc P) b h t n p fuel :
  (∀ a c, less a c = lt (Payload a) (Payload c)) → Less b = less →
  rep b h t → ordered lt t → n ∉ inorder t →
  h !! n = Some (mkNode p None None) → height t ≤ fuel →
  ∃ b' h' t' x i,
    Upsert fuel b h n = Some (b', h', (x, i))
    ∧ rep b' h' t' ∧ ordered lt t'
    ∧ (if i then x = n ∧ inorder t' ≡ₚ n :: inorder t else t' = t)
    ∧ x ∈ inorder t' ∧ height t' ≤ S (height t).
Proof.
  intros Hless Hb Hrep Hord Hn Hleaf Hfuel.
  destruct (Upsert_rep lt less Hless fuel b h t n p)
    as (b' & h' & Hup & _ & Hrep' & _); [done..|].
  pose proof (ins_inserted lt t n p) as Hi.
  pose proof (ins_found lt t n p) as Hf.
  pose proof (ins_result_in t n p) as Hin.
  pose proof (ins_height t n p) as Hht.
  pose proof (ins_ordered lt t n p Hord) as Hord'.
  destruct (ins lt t n p) as [t' [x i]]. simpl in *.
  exists b', h', t', x, i. split_and!; [done..| |done|done].
  destruct i.
  - by destruct Hi as (-> & -> & _).
  - by destruct Hf as (-> & _).
Qed.

(** [Upsert] as a membership test: on an ordered tree under a transitive
    [less], a new node is answered [inserted = false] exactly when the
    tree already holds a payload equivalent to its own. *)
Theorem Upsert_found_iff_present (less : LessFunc P) b h t n p fuel :
  (∀ a c, less a c = lt (Payload a) (Payload c)) →
  (∀ p q s, lt p q = true → lt q s = true → lt p s = true) →
  Less b = less → rep b h t → ordered lt t → n ∉ inorder t →
  h !! n = Some (mkNode p None None) → height t ≤ fuel →
  ∃ b' h' x i,
    Upsert fuel b h n = Some (b', h', (x, i))
    ∧ (i = false ↔ ∃ q, q ∈ payloads t ∧ equivalent lt p q = true).
Proof.
  intros Hless Htrans Hb Hrep Hord Hn Hleaf Hfuel.
  destruct (Upsert_rep lt less Hless fuel b h t n p)
    as (b' & h' & Hup & _); [done..|].
  pose proof (ins_found lt t n p) as Hf.
  pose proof (ins_inserted_new lt Htrans t n p Hord) as Hnew.
  destruct (ins lt t n p) as [t' [x i]]. simpl in *.
  exists b', h', x, i. split; [done|]. split.
  - intros ->. by destruct Hf as (_ & _ & Hq).
  - intros (q & Hq & He). destruct i; [|done].
    specialize (Hnew eq_refl). rewrite Forall_forall in Hnew.
    rewrite (Hnew q Hq) in He. done.
Qed.

End upsert_payload_order.

(** * More about the traversals *)

Section walk_more.
Context {P : Type}.
Implicit Types (b : BTree P) (h : gmap loc (Node P)) (t l r : tree P).

Lemma NoDup_palindrome (xs : list loc) :
  NoDup xs → xs = reverse xs ↔ length xs ≤ 1.
Proof.
  intros Hnd. destruct xs as [|x [|y xs]]; simpl.
  - split; [lia|done].
  - split; [lia|done].
  - split; [|lia]. intros Heq. apply (f_equal last) in Heq.
    rewrite last_cons_cons, (reverse_cons (y :: xs)), last_snoc in Heq.
    apply last_Some_elem_of in Heq. by apply NoDup_cons in Hnd as [].
Qed.

(** [DepthFirstReverse] yields the visits of [DepthFirstInOrder] backwards
    exactly on the trees whose root has at most one node on either side. *)
Theorem reverse_mirrors_iff b h l x p r fuel :
  rep b h (T l x p r) → height (T l x p r) ≤ fuel →
  ∃ vi vr,
    DepthFirstInOrder fuel b record_visit (h, []) = Some (h, vi)
    ∧ DepthFirstReverse fuel b record_visit (h, []) = Some (h, vr)
    ∧ (vr = reverse vi ↔ length (inorder l) ≤ 1 ∧ length (inorder r) ≤ 1).
Proof.
  intros [Hroot Hheap Hnd] Hfuel.
  exists (inorder (T l x p r)), (reverse_order (T l x p r)).
  unfold DepthFirstInOrder, DepthFirstReverse. rewrite Hroot. cbn [root_of].
  split; [by apply (inorder_visits fuel h (T l x p r) x [])|].
  split; [by apply (reverse_visits fuel h l x p r [])|].
  simpl in *. apply NoDup_app in Hnd as (Hndl & _ & Hnd).
  apply NoDup_cons in Hnd as (_ & Hndr).
  rewrite reverse_app, reverse_cons, <-app_assoc. simpl.
  rewrite <-(NoDup_palindrome _ Hndl), <-(NoDup_palindrome _ Hndr).
  split.
  - intros Heq. apply app_inj_1 in Heq as [Hr [= Hl]];
      [done|by rewrite length_reverse].
  - intros [Hl Hr]. by rewrite <-Hl, <-Hr.
Qed.

(** Where [Less] holds of the root and itself and the root has no left
    child, upserting the root makes it its own [Left] child, and from
    then on [DepthFirstInOrder] never returns, whatever the visitor. *)
Theorem Upsert_root_under_reflexive_Less {W : Type} (walk : WalkFunc P W)
    b h root c fuel :
  Root b = Some root → h !! root = Some c → Left c = None →
  Less b c c = true →
  Upsert (S fuel) b h root
  = Some (b, <[root := setLeft c root]> h, (root, true))
  ∧ ∀ fuel' w,
      DepthFirstInOrder fuel' b walk (<[root := setLeft c root]> h, w) = None.
Proof.
  intros Hb Hc Hl Hcc. split.
  - unfold Upsert. by rewrite Hb, upsertFrom_S, Hc, Hcc, Hl.
  - unfold DepthFirstInOrder. rewrite Hb. intros fuel'.
    induction fuel' as [|k IH]; intros w; [done|].
    cbn [depthFirstInOrderFrom fst]. rewrite lookup_insert_eq.
    cbn [setLeft Left]. by rewrite IH.
Qed.

End walk_more.

(** * Termination on trees built through the API *)

Section built_more.
Context {P : Type}.
Variable lt : P → P → bool.
Implicit Types (b : BTree P) (h : gmap loc (Node P)) (t l r : tree P).

(** On every tree built through the API under an irreflexive and
    transitive [less] on the payloads, a recursion budget of the number of
    allocated nodes is enough: [Upsert] of any allocated node returns, and
    both traversals return, with the store unchanged, having visited the
    same nodes, each once. *)
Theorem built_operations_return (less : LessFunc P) b h n m fuel :
  (∀ a c, less a c = lt (Payload a) (Payload c)) →
  (∀ p, lt p p = false) →
  (∀ p q s, lt p q = true → lt q s = true → lt p s = true) →
  built less b h → h !! n = Some m → size h ≤ fuel →
  (∃ res, Upsert fuel b h n = Some res)
  ∧ ∃ vi vr,
      DepthFirstInOrder fuel b record_visit (h, []) = Some (h, vi)
      ∧ DepthFirstReverse fuel b record_visit (h, []) = Some (h, vr)
      ∧ NoDup vi ∧ vr ≡ₚ vi.
Proof.
  intros Hless Hirr Htrans Hbuilt Hn Hfuel.
  split; [by eapply (built_Upsert_returns lt less)|].
  destruct (built_inv lt less Hless Hirr Htrans b h Hbuilt)
    as (_ & t & [Hroot Hheap Hnd] & _).
  pose proof (height_le_length t).
  pose proof (length_inorder_size h t Hheap Hnd).
  exists (inorder t), (reverse_order t).
  unfold DepthFirstInOrder, DepthFirstReverse. rewrite Hroot.
  destruct t as [|l x p r]; [simpl; split_and!; done|].
  cbn [root_of]. split_and!.
  - apply (inorder_visits fuel h (T l x p r) x []); [done..|lia].
  - apply (reverse_visits fuel h l x p r []); [done|lia].
  - done.
  - apply reverse_order_perm.
Qed.

End built_more.

(** * No balancing *)

Section chain.
Context {P : Type}.
Variable lt : P → P → bool.
Variable less : LessFunc P.
Hypothesis less_payload : ∀ a b, less a b = lt (Payload a) (Payload b).
Implicit Types (b : BTree P) (h : gmap loc (Node P)) (t l r : tree P).
Implicit Types (x n : loc) (p q : P).

Lemma left_chain_height t : left_chain t → height t = length (payloads t).
Proof.
  induction t as [|l IHl x q r IHr]; simpl; [done|].
  intros [-> Hl]. rewrite length_app, IHl by done. simpl. lia.
Qed.

(** A payload greater than all of a left chain goes to its far end. *)
Lemma ins_left_chain t n p :
  left_chain t → Forall (λ q, lt q p = true) (payloads t) →
  left_chain (ins lt t n p).1
  ∧ payloads (ins lt t n p).1 = p :: payloads t.
Proof.
  induction t as [|l IHl x q r IHr]; simpl; [done|].
  intros [-> Hl] [Hall Hq]%Forall_app. apply Forall_cons in Hq as [-> _].
  destruct (IHl Hl Hall) as [Hl' Hp'].
  destruct (ins lt l n p) as [l' res]. simpl in *. by rewrite Hp'.
Qed.

Lemma upsertFrom_chain_short fuel h t from n m :
  heap_tree h t → root_of t = Some from → left_chain t → h !! n = Some m →
  Forall (λ q, lt q (Payload m) = true) (payloads t) → fuel < height t →
  upsertFrom fuel less h from n = None.
Proof.
  revert fuel from.
  induction t as [|l IHl x q r IHr]; intros fuel from; simpl; [done|].
  intros (Hx & Hl & _) [= <-] [-> Hchain] Hn [Hall Hq]%Forall_app Hfuel.
  apply Forall_cons in Hq as [Hq _].
  destruct fuel as [|k]; [done|]. rewrite upsertFrom_S, Hx, Hn, less_payload.
  simpl. rewrite Hq. destruct (root_of l) as [lx|] eqn:Hroot.
  - apply (IHl k lx); [done..|]. simpl in Hfuel. lia.
  - apply root_of_None in Hroot as ->. simpl in Hfuel. lia.
Qed.

Lemma UpsertAll_ascending ps : ∀ fuel b h t,
  Less b = less → rep b h t → left_chain t →
  StronglySorted (λ a c, lt a c = true) ps →
  Forall (λ q, Forall (λ p, lt q p = true) ps) (payloads t) →
  (height t + length ps ≤ fuel →
   ∃ b' h' t',
     UpsertAll fuel ps (b, h) = Some (b', h')
     ∧ rep b' h' t' ∧ left_chain t'
     ∧ payloads t' = reverse ps ++ payloads t)
  ∧ (height t ≤ S fuel → S fuel < height t + length ps →
     UpsertAll fuel ps (b, h) = None).
Proof.
  induction ps as [|p ps IH]; intros fuel b h t Hless Hrep Hchain Hsort Hall.
  { split; [|simpl; lia]. intros _. by exists b, h, t. }
  apply StronglySorted_cons in Hsort as [Hp Hsort].
  assert (Forall (λ q, lt q p = true) (payloads t)) as Hhead.
  { eapply Forall_impl; [exact Hall|]. simpl. by intros q [? _]%Forall_cons. }
  destruct (ins_left_chain t (fresh (dom h)) p Hchain Hhead) as [Hchain1 Hpay1].
  pose proof (left_chain_height _ Hchain) as Hht.
  pose proof (left_chain_height _ Hchain1) as Hht1. rewrite Hpay1 in Hht1.
  simpl in Hht1. rewrite <-Hht in Hht1.
  assert (Forall (λ q, Forall (λ p, lt q p = true) ps)
            (payloads (ins lt t (fresh (dom h)) p).1)) as Hall1.
  { rewrite Hpay1. constructor; [done|].
    eapply Forall_impl; [exact Hall|]. simpl. by intros q [_ ?]%Forall_cons. }
  simpl. destruct (decide (height t ≤ fuel)) as [Hle|Hgt].
  - destruct (UpsertPayload_rep lt less less_payload fuel b h t p)
      as (b1 & h1 & -> & Hless1 & Hrep1); [done..|].
    destruct (ins lt t (fresh (dom h)) p) as [t1 res]. simpl in *.
    destruct (IH fuel b1 h1 t1 Hless1 Hrep1 Hchain1 Hsort Hall1) as [IHa IHb].
    split.
    + intros Hfuel. destruct IHa as (b' & h' & t' & -> & Hrep' & Hchain' & Hpay');
        [lia|].
      exists b', h', t'. split_and!; [done..|].
      by rewrite Hpay', Hpay1, reverse_cons, <-app_assoc.
    + intros _ Hfuel. apply IHb; lia.
  - split; [lia|]. intros Hfuel _. unfold UpsertPayload, NewNode. simpl.
    destruct Hrep as [Hroot Hheap Hnd]. unfold Upsert. rewrite Hroot, Hless.
    destruct (root_of t) as [root|] eqn:Hr.
    + rewrite (upsertFrom_chain_short fuel _ t root _ (mkNode p None None));
        [done| |done|done|by rewrite lookup_insert_eq|done|lia].
      apply (heap_tree_frame h); [|done]. intros y Hy.
      rewrite lookup_insert_ne; [done|]. intros <-.
      apply (is_fresh (dom h)). by eapply heap_tree_dom.
    + apply root_of_None in Hr as ->. simpl in Hgt. lia.
Qed.

(** The tree is never rebalanced: payloads upserted in ascending order
    hang in one chain through [Left], as deep as they are many, and
    [upsertFrom] recurses down its whole length: a recursion budget two
    or more short of the number of payloads does not suffice. *)
Theorem ascending_input_makes_a_chain ps fuel :
  StronglySorted (λ a c, lt a c = true) ps →
  (length ps ≤ fuel →
   ∃ b h t,
     UpsertAll fuel ps (New less, ∅) = Some (b, h)
     ∧ rep b h t ∧ left_chain t
     ∧ height t = length ps ∧ payloads t = reverse ps)
  ∧ (S fuel < length ps → UpsertAll fuel ps (New less, ∅) = None).
Proof.
  intros Hsort.
  destruct (UpsertAll_ascending ps fuel (New less) ∅ Nil)
    as [Ha Hb]; [done|apply rep_New|done|done|constructor|].
  split.
  - intros Hfuel. destruct Ha as (b & h & t & Hrun & Hrep & Hchain & Hpay);
      [simpl; lia|].
    exists b, h, t. rewrite app_nil_r in Hpay. split_and!; [done..| |done].
    by rewrite (left_chain_height t Hchain), Hpay, length_reverse.
  - intros Hfuel. apply Hb; simpl; lia.
Qed.

End chain.

(** * The word counter *)

(** ** [lessFunc] *)

Lemma ascii_compare_refl (a : Ascii.ascii) : Ascii.compare a a = Eq.
Proof. apply N.compare_refl. Qed.

Lemma ascii_compare_lt_trans (a b c : Ascii.ascii) :
  Ascii.compare a b = Lt → Ascii.compare b c = Lt → Ascii.compare a c = Lt.
Proof. unfold Ascii.compare. rewrite !N.compare_lt_iff. lia. Qed.

Lemma string_compare_refl (s : string) : String.compare s s = Eq.
Proof. induction s as [|a s IH]; simpl; [done|]. by rewrite ascii_compare_refl. Qed.

Lemma string_compare_lt_trans (s1 s2 s3 : string) :
  String.compare s1 s2 = Lt → String.compare s2 s3 = Lt →
  String.compare s1 s3 = Lt.
Proof.
  revert s2 s3. induction s1 as [|a s1 IH]; intros [|b s2] [|c s3]; simpl;
    try done.
  destruct (Ascii.compare a b) eqn:Hab; [|intros _|done].
  - apply Ascii.compare_eq_iff in Hab as ->.
    destruct (Ascii.compare b c); [apply IH|done..].
  - destruct (Ascii.compare b c) eqn:Hbc; [|intros _|done].
    + apply Ascii.compare_eq_iff in Hbc as <-. by rewrite Hab.
    + by rewrite (ascii_compare_lt_trans a b c).
Qed.

Lemma string_ltb_irrefl (s : string) : String.ltb s s = false.
Proof. unfold String.ltb. by rewrite string_compare_refl. Qed.

Lemma string_ltb_trans (s1 s2 s3 : string) :
  String.ltb s1 s2 = true → String.ltb s2 s3 = true → String.ltb s1 s3 = true.
Proof.
  unfold String.ltb. intros H12 H23.
  rewrite (string_compare_lt_trans s1 s2 s3); [done| |].
  - by destruct (String.compare s1 s2).
  - by destruct (String.compare s2 s3).
Qed.

Lemma string_ltb_total (s1 s2 : string) :
  String.ltb s1 s2 = false → String.ltb s2 s1 = false → s1 = s2.
Proof.
  unfold String.ltb. rewrite (String.compare_antisym s2 s1).
  destruct (String.compare s1 s2) eqn:Hc; simpl; [|done..].
  intros _ _. by apply String.compare_eq_iff.
Qed.

Lemma lt_str_equivalent (p q : stringcount) :
  equivalent (λ p q, String.ltb (str p) (str q)) p q = true ↔ str p = str q.
Proof.
  unfold equivalent. rewrite andb_true_iff, !negb_true_iff. split.
  - intros [H1 H2]. by apply string_ltb_total.
  - intros ->. by rewrite string_ltb_irrefl.
Qed.

(** [lessFunc] compares the words only, it is a strict weak ordering of
    the payloads, and it holds two nodes equivalent exactly when they
    carry the same word. *)
Theorem lessFunc_orders_words :
  (∀ a b, lessFunc a b = String.ltb (str (Payload a)) (str (Payload b)))
  ∧ StrictWeakOrder (λ p q : stringcount, String.ltb (str p) (str q))
  ∧ ∀ a b, lessFunc a b = false ∧ lessFunc b a = false
           ↔ str (Payload a) = str (Payload b).
Proof.
  split; [done|]. split.
  - split.
    + intros p. apply string_ltb_irrefl.
    + intros p q s. apply string_ltb_trans.
    + intros p q s. rewrite !lt_str_equivalent. congruence.
  - intros a b. unfold lessFunc. split.
    + intros [H1 H2]. by apply string_ltb_total.
    + intros ->. by rewrite string_ltb_irrefl.
Qed.

(** ** Vertices and payload updates *)

Section elems_facts.
Context {P : Type}.
Implicit Types (h : gmap loc (Node P)) (t l r : tree P) (x n : loc) (p q : P).

Lemma elems_inorder t : (elems t).*1 = inorder t.
Proof.
  induction t as [|l IHl x p r IHr]; simpl; [done|].
  by rewrite fmap_app, fmap_cons, IHl, IHr.
Qed.

Lemma elems_payloads t : (elems t).*2 = payloads t.
Proof.
  induction t as [|l IHl x p r IHr]; simpl; [done|].
  by rewrite fmap_app, fmap_cons, IHl, IHr.
Qed.

Lemma elems_lookup h t x p :
  heap_tree h t → (x, p) ∈ elems t → ∃ nd, h !! x = Some nd ∧ Payload nd = p.
Proof.
  induction t as [|l IHl y q r IHr]; simpl; [set_solver|].
  intros (Hy & Hl & Hr) Hin.
  apply elem_of_app in Hin as [Hin|Hin]; [by apply IHl|].
  apply elem_of_cons in Hin as [[= -> ->]|Hin]; [|by apply IHr].
  by eexists.
Qed.

Lemma tmap_root (f : loc → P → P) t : root_of (tmap f t) = root_of t.
Proof. by destruct t. Qed.

Lemma tmap_inorder (f : loc → P → P) t : inorder (tmap f t) = inorder t.
Proof.
  induction t as [|l IHl x p r IHr]; simpl; [done|]. by rewrite IHl, IHr.
Qed.

Lemma tmap_payloads (f : loc → P → P) t :
  payloads (tmap f t) = (λ e, f e.1 e.2) <$> elems t.
Proof.
  induction t as [|l IHl x p r IHr]; simpl; [done|].
  by rewrite fmap_app, fmap_cons, IHl, IHr.
Qed.

(** Rewriting the payload of the node [x] in the store rewrites it in
    the tree. *)
Lemma heap_tree_tmap (g : P → P) h t x nd :
  heap_tree h t → h !! x = Some nd →
  heap_tree (<[x := mkNode (g (Payload nd)) (Left nd) (Right nd)]> h)
    (tmap (λ y p, if decide (y = x) then g p else p) t).
Proof.
  intros Ht Hx. induction t as [|l IHl y p r IHr]; simpl; [done|].
  destruct Ht as (Hy & Hl & Hr). rewrite !tmap_root.
  split; [|split; [by apply IHl|by apply IHr]].
  destruct (decide (y = x)) as [->|Hne].
  - rewrite lookup_insert_eq. rewrite Hy in Hx. by injection Hx as <-.
  - by rewrite lookup_insert_ne.
Qed.

Lemma ordered_tmap (lt : P → P → bool) (f : loc → P → P) t :
  (∀ y p q, lt (f y p) q = lt p q) → (∀ y p q, lt q (f y p) = lt q p) →
  ordered lt t → ordered lt (tmap f t).
Proof.
  intros Hl Hr. induction t as [|l IHl x p r IHr]; simpl; [done|].
  intros (Hal & Har & Hol & Hor).
  rewrite !tmap_payloads, !Forall_fmap. rewrite <-elems_payloads in Hal, Har.
  rewrite Forall_fmap in Hal, Har.
  split_and!; [| |by apply IHl|by apply IHr].
  - eapply Forall_impl; [exact Hal|]. intros [y q]. simpl. by rewrite Hl, Hr.
  - eapply Forall_impl; [exact Har|]. intros [y q]. simpl. by rewrite Hl, Hr.
Qed.

(** Where [ins] ends up: a new vertex for the payload, or an old vertex
    with an equivalent payload. *)
Lemma ins_elems (lt : P → P → bool) t n p :
  match (ins lt t n p).2 with
  | (x, true) => x = n ∧ elems (ins lt t n p).1 ≡ₚ (n, p) :: elems t
  | (x, false) =>
    (ins lt t n p).1 = t ∧ ∃ q, (x, q) ∈ elems t ∧ equivalent lt p q = true
  end.
Proof.
  induction t as [|l IHl y q r IHr]; simpl; [done|].
  destruct (lt q p) eqn:Hqp.
  - destruct (ins lt l n p) as [l' [x [|]]]; simpl in *.
    + destruct IHl as [-> Hperm]. split; [done|]. by rewrite Hperm.
    + destruct IHl as [-> (q' & Hq' & He)]. split; [done|].
      exists q'. set_solver.
  - destruct (lt p q) eqn:Hpq.
    + destruct (ins lt r n p) as [r' [x [|]]]; simpl in *.
      * destruct IHr as [-> Hperm]. split; [done|]. rewrite Hperm.
        by rewrite <-!Permutation_middle, Permutation_swap.
      * destruct IHr as [-> (q' & Hq' & He)]. split; [done|].
        exists q'. set_solver.
    + simpl. split; [done|]. exists q. split; [set_solver|].
      unfold equivalent. by rewrite Hqp, Hpq.
Qed.

(** In an ordered tree under a transitive and irreflexive comparison two
    vertices with equivalent payloads are the same vertex. *)
Lemma elems_equivalent_same (lt : P → P → bool) t x y p q :
  (∀ p q s, lt p q = true → lt q s = true → lt p s = true) →
  ordered lt t → (x, p) ∈ elems t → (y, q) ∈ elems t →
  equivalent lt p q = true → (x, p) = (y, q).
Proof.
  intros Htrans Hord Hx Hy Heq.
  pose proof (ordered_descending lt Htrans t Hord) as Hdesc.
  apply list_elem_of_lookup in Hx as [i Hi]. apply list_elem_of_lookup in Hy as [j Hj].
  assert (payloads t !! i = Some p) as Hpi.
  { by rewrite <-elems_payloads, list_lookup_fmap, Hi. }
  assert (payloads t !! j = Some q) as Hpj.
  { by rewrite <-elems_payloads, list_lookup_fmap, Hj. }
  apply andb_true_iff in Heq as [Hpq Hqp]. apply negb_true_iff in Hpq, Hqp.
  destruct (decide (i < j)) as [Hlt|Hge].
  { pose proof (StronglySorted_lookup _ _ i j p q Hdesc Hlt Hpi Hpj). congruence. }
  destruct (decide (j < i)) as [Hlt|Hge'].
  { pose proof (StronglySorted_lookup _ _ j i q p Hdesc Hlt Hpj Hpi). congruence. }
  assert (i = j) as -> by lia. congruence.
Qed.

End elems_facts.

(** ** The scanner loop *)

Section count_words_facts.
Local Abbreviation ltw := (λ p q : stringcount, String.ltb (str p) (str q)).
Implicit Types (b : BTree stringcount) (h : gmap loc (Node stringcount)).
Implicit Types (t : tree stringcount) (w : string) (ws done : list string).

Lemma wrap64_succ (z : Z) : wrap64 (wrap64 z + 1) = wrap64 (z + 1).
Proof.
  unfold wrap64.
  replace ((z + 2 ^ 63) mod 2 ^ 64 - 2 ^ 63 + 1 + 2 ^ 63)%Z
    with ((z + 2 ^ 63) mod 2 ^ 64 + 1)%Z by lia.
  rewrite Zplus_mod_idemp_l. f_equal. f_equal. lia.
Qed.

Lemma occurrences_snoc w v ws :
  occurrences w (ws ++ [v]) = occurrences w ws + (if decide (v = w) then 1 else 0).
Proof.
  unfold occurrences. rewrite filter_app, length_app. f_equal.
  rewrite filter_cons, filter_nil. by destruct (decide (v = w)).
Qed.

Lemma occurrences_absent w ws : w ∉ ws → occurrences w ws = 0.
Proof.
  unfold occurrences. induction ws as [|v ws IH]; [done|].
  intros [Hne Hin]%not_elem_of_cons. rewrite filter_cons.
  destruct (decide (v = w)); [congruence|by apply IH].
Qed.

Lemma ltw_trans (p q s : stringcount) :
  ltw p q = true → ltw q s = true → ltw p s = true.
Proof. apply string_ltb_trans. Qed.

(** One pass through the loop body keeps the tally. *)
Lemma count_word_step fuel done w b h t :
  Less b = lessFunc → rep b h t → ordered ltw t → tallied done t →
  height t ≤ fuel →
  ∃ b' h' t',
    count_word fuel w (b, h) = Some (b', h')
    ∧ Less b' = lessFunc ∧ rep b' h' t' ∧ ordered ltw t'
    ∧ tallied (done ++ [w]) t'
    ∧ length (inorder t') ≤ S (length (inorder t)).
Proof.
  intros Hless Hrep Hord [Hcnt Hcov] Hfuel. unfold count_word.
  set (p0 := {| str := w; count := 0 |}).
  destruct (UpsertPayload_rep ltw lessFunc (λ _ _, eq_refl) fuel b h t p0)
    as (b1 & h1 & -> & Hless1 & Hrep1); [done..|].
  set (n := fresh (dom h)) in *.
  pose proof (ins_elems ltw t n p0) as Hins.
  pose proof (ins_ordered ltw t n p0 Hord) as Hord1.
  pose proof (ins_inserted_new ltw ltw_trans t n p0 Hord) as Hnew.
  destruct (ins ltw t n p0) as [t1 [x i]]. simpl in *.
  assert (∃ px, (x, px) ∈ elems t1 ∧ str px = w
            ∧ count px = wrap64 (Z.of_nat (occurrences w done))
            ∧ (∀ y p, (y, p) ∈ elems t1 → y ≠ x → p ∈ payloads t)
            ∧ (∀ p, p ∈ payloads t → p ∈ payloads t1)
            ∧ length (inorder t1) ≤ S (length (inorder t)))
    as (px & Hx & Hstr & Hcount & Hold & Hsub & Hlen).
  { destruct i.
    - destruct Hins as [-> Hperm]. exists p0.
      assert (w ∉ done) as Hw.
      { intros Hin. destruct (Hcov w Hin) as (p & Hp & Hpw).
        specialize (Hnew eq_refl). rewrite Forall_forall in Hnew.
        specialize (Hnew p Hp).
        assert (equivalent ltw p0 p = true); [|congruence].
        by apply lt_str_equivalent. }
      split_and!.
      + rewrite Hperm. set_solver.
      + done.
      + by rewrite (occurrences_absent w done Hw).
      + intros y p Hyp Hne. rewrite Hperm in Hyp.
        apply elem_of_cons in Hyp as [[= ? ?]|Hyp]; [done|].
        rewrite <-elems_payloads. by apply (list_elem_of_fmap_2 snd _ (y, p)).
      + intros p Hp. rewrite <-elems_payloads, Hperm, fmap_cons, elems_payloads.
        set_solver.
      + rewrite <-!elems_inorder, !length_fmap, Hperm. done.
    - destruct Hins as [-> (q & Hq & He)]. exists q.
      apply lt_str_equivalent in He. simpl in He.
      assert (q ∈ payloads t) as Hqp.
      { rewrite <-elems_payloads. by apply (list_elem_of_fmap_2 snd _ (x, q)). }
      split_and!; [done|done| | |done|lia].
      + destruct (Hcnt q Hqp) as [_ ->]. by rewrite <-He.
      + intros y p Hyp _. rewrite <-elems_payloads.
        by apply (list_elem_of_fmap_2 snd _ (y, p)). }
  destruct Hrep1 as [Hroot1 Hheap1 Hnd1].
  destruct (elems_lookup h1 t1 x px Hheap1 Hx) as (nd & Hnd & Hpay).
  rewrite Hnd.
  set (f := λ (y : loc) (p : stringcount), if decide (y = x) then incr p else p).
  exists b1, (<[x := mkNode (incr (Payload nd)) (Left nd) (Right nd)]> h1),
    (tmap f t1).
  assert (∀ y p, str (f y p) = str p) as Hfstr.
  { intros y p. unfold f. by destruct (decide (y = x)). }
  split; [done|]. split; [done|]. split_and!.
  - split.
    + by rewrite tmap_root.
    + by apply (heap_tree_tmap incr).
    + by rewrite tmap_inorder.
  - apply ordered_tmap; [| |done]; intros y p q; by rewrite Hfstr.
  - split.
    + intros p'. rewrite tmap_payloads.
      intros ([y p] & -> & Hyp)%list_elem_of_fmap. simpl.
      rewrite Hfstr. unfold f. destruct (decide (y = x)) as [->|Hne].
      * destruct (elems_lookup h1 t1 x p Hheap1 Hyp) as (nd' & Hnd' & Hpay').
        assert (p = px) as -> by congruence.
        split; [set_solver|]. simpl.
        rewrite Hcount, Hstr, wrap64_succ, occurrences_snoc.
        rewrite decide_True by done. f_equal. lia.
      * destruct (Hcnt p (Hold y p Hyp Hne)) as [Hin ->].
        split; [set_solver|].
        rewrite occurrences_snoc, decide_False; [by rewrite Nat.add_0_r|].
        intros Hw. apply Hne.
        assert ((y, p) = (x, px)) as [= ? ?]; [|done].
        apply (elems_equivalent_same ltw t1); [apply ltw_trans|done..|].
        apply lt_str_equivalent. congruence.
    + intros w' [Hw'| ->%list_elem_of_singleton]%elem_of_app.
      * destruct (Hcov w' Hw') as (p & Hp & Hpw).
        apply Hsub in Hp. rewrite <-elems_payloads in Hp.
        apply list_elem_of_fmap in Hp as ([y p'] & -> & Hyp).
        exists (f y p'). rewrite Hfstr. split; [|done].
        rewrite tmap_payloads.
        by apply (list_elem_of_fmap_2 (λ e, f e.1 e.2) _ (y, p')).
      * exists (f x px). rewrite Hfstr. split; [|done].
        rewrite tmap_payloads.
        by apply (list_elem_of_fmap_2 (λ e, f e.1 e.2) _ (x, px)).
  - by rewrite tmap_inorder.
Qed.

Lemma count_words_tally ws : ∀ fuel done b h t,
  Less b = lessFunc → rep b h t → ordered ltw t → tallied done t →
  length (inorder t) + length ws ≤ fuel →
  ∃ b' h' t',
    count_words fuel ws (b, h) = Some (b', h')
    ∧ Less b' = lessFunc ∧ rep b' h' t' ∧ ordered ltw t'
    ∧ tallied (done ++ ws) t'
    ∧ length (inorder t') ≤ length (inorder t) + length ws.
Proof.
  induction ws as [|w ws IH]; intros fuel done b h t Hless Hrep Hord Htal Hfuel.
  { exists b, h, t. rewrite app_nil_r. simpl. split_and!; [done..|lia]. }
  simpl in *. pose proof (height_le_length t).
  destruct (count_word_step fuel done w b h t)
    as (b1 & h1 & t1 & -> & Hless1 & Hrep1 & Hord1 & Htal1 & Hlen1);
    [done..|lia|].
  destruct (IH fuel (done ++ [w]) b1 h1 t1)
    as (b' & h' & t' & Hrun & Hless' & Hrep' & Hord' & Htal' & Hlen');
    [done..|lia|].
  exists b', h', t'. rewrite <-app_assoc in Htal'.
  split_and!; [done..|lia].
Qed.

End count_words_facts.

(** ** Printing the tally *)

Lemma nodeWalk_store n (s : gmap loc (Node stringcount) * string) :
  (nodeWalk n s).1 = s.1.
Proof. unfold nodeWalk. by destruct (s.1 !! n). Qed.

Lemma walk_all_nodeWalk h (xs : list loc) : ∀ (es : list stringcount) out,
  payload_at h <$> xs = Some <$> es →
  walk_all nodeWalk (h, out) xs
  = (h, foldl (λ out e, out +:+ Println (count e) (str e)) out es).
Proof.
  induction xs as [|x xs IH]; intros [|e es] out Heq; try done.
  rewrite !fmap_cons in Heq. injection Heq as Hx Hxs.
  rewrite walk_all_cons. unfold nodeWalk at 2. cbn [fst snd].
  unfold payload_at in Hx. destruct (h !! x) as [nd|]; [|done].
  injection Hx as ->. cbn [foldl]. by apply IH.
Qed.

(** [main], called without arguments, exits normally for every input,
    having written one line per distinct word, the line being the number
    of times the word occurred (as an [int64]), a space and the word; the
    lines come in descending order of the words. *)
Theorem main_prints_tally fuel args words :
  length args = 1 → length words ≤ fuel →
  ∃ es,
    main fuel args words = Some (Exit (report es))
    ∧ StronglySorted (λ a c, String.ltb (str c) (str a) = true) es
    ∧ (∀ e, e ∈ es →
         str e ∈ words
         ∧ count e = wrap64 (Z.of_nat (occurrences (str e) words)))
    ∧ (∀ w, w ∈ words → ∃ e, e ∈ es ∧ str e = w).
Proof.
  intros Hargs Hfuel. unfold main. rewrite Hargs. simpl.
  destruct (count_words_tally words fuel [] (New lessFunc) ∅ Nil)
    as (b & h & t & -> & _ & [Hroot Hheap Hnd] & Hord & [Hcnt Hcov] & Hlen);
    [done|apply rep_New|done| |simpl; lia|].
  { split; [|set_solver]. intros p. simpl. set_solver. }
  simpl in *. exists (payloads t).
  pose proof (height_le_length t) as Hht.
  assert (DepthFirstInOrder fuel b nodeWalk (h, EmptyString)
          = Some (h, report (payloads t))) as ->.
  { unfold DepthFirstInOrder. rewrite Hroot.
    destruct (root_of t) as [x|] eqn:Hx.
    - rewrite (inorder_fold nodeWalk (λ n s, f_equal links (nodeWalk_store n s))
                 fuel t x); [|by apply heap_tree_links|done|lia].
      f_equal. apply walk_all_nodeWalk. by apply heap_tree_payloads.
    - by apply root_of_None in Hx as ->. }
  split; [done|]. split; [|done].
  apply (ordered_descending (λ p q, String.ltb (str p) (str q))); [|done].
  intros p q s. apply string_ltb_trans.
Qed.

Lemma main_prints_tally_witness :
  ∃ es,
    main 5 ["wordcount"] ["the"; "quick"; "the"; "fox"; "the"]
    = Some (Exit (report es))
    ∧ StronglySorted (λ a c, String.ltb (str c) (str a) = true) es
    ∧ (∀ e, e ∈ es →
         str e ∈ ["the"; "quick"; "the"; "fox"; "the"]
         ∧ count e = wrap64 (Z.of_nat (occurrences (str e)
                                          ["the"; "quick"; "the"; "fox"; "the"])))
    ∧ (∀ w, w ∈ ["the"; "quick"; "the"; "fox"; "the"] →
         ∃ e, e ∈ es ∧ str e = w).
Proof.
  apply (main_prints_tally 5 ["wordcount"] ["the"; "quick"; "the"; "fox"; "the"]).
  - reflexivity.
  - simpl. lia.
Defined.

(** * The further properties at concrete trees *)

Lemma rep_5 : rep tree5 store4 shape5.
Proof.
  split; [reflexivity|simpl; repeat split; reflexivity|].
  simpl. repeat constructor; set_solver.
Qed.

Lemma Upsert_inserted_one_write_witness :
  2%positive = 2%positive
  ∧ ((Root tree5 = None ∧ tree5 = mkBTree (Some 2%positive) (Less tree5)
      ∧ <[1%positive := setRight (mkNode 5%Z None None) 2%positive]> store4
        = store4)
     ∨ (tree5 = tree5 ∧ ∃ cur c m,
          store4 !! cur = Some c ∧ store4 !! 2%positive = Some m
          ∧ ((Less tree5 c m = true ∧ Left c = None
              ∧ <[1%positive := setRight (mkNode 5%Z None None) 2%positive]> store4
                = <[cur := setLeft c 2%positive]> store4)
             ∨ (Less tree5 c m = false ∧ Less tree5 m c = true
                ∧ Right c = None
                ∧ <[1%positive := setRight (mkNode 5%Z None None) 2%positive]> store4
                  = <[cur := setRight c 2%positive]> store4)))).
Proof.
  apply (Upsert_inserted_one_write 1 tree5 store4 2%positive tree5
           (<[1%positive := setRight (mkNode 5%Z None None) 2%positive]> store4)
           2%positive).
  reflexivity.
Defined.

Lemma Upsert_found_equivalent_witness :
  ∃ c m, store4 !! 1%positive = Some c ∧ store4 !! 4%positive = Some m
         ∧ Less tree5 c m = false ∧ Less tree5 m c = false.
Proof.
  apply (Upsert_found_equivalent 1 tree5 store4 4%positive tree5 store4 1%positive).
  reflexivity.
Defined.

Lemma Upsert_never_overwrites_witness :
  dom (<[1%positive := setRight (mkNode 5%Z None None) 2%positive]> store4)
  = dom store4
  ∧ (∀ y nd, store4 !! y = Some nd →
       ∃ nd', <[1%positive := setRight (mkNode 5%Z None None) 2%positive]> store4
              !! y = Some nd' ∧ extends nd nd')
  ∧ Less tree5 = Less tree5
  ∧ (∀ root, Root tree5 = Some root → Root tree5 = Some root).
Proof.
  apply (Upsert_never_overwrites 1 tree5 store4 2%positive tree5
           (<[1%positive := setRight (mkNode 5%Z None None) 2%positive]> store4)
           (2%positive, true)).
  reflexivity.
Defined.

Lemma Upsert_same_node_again_witness :
  Upsert 2 tree5
    (<[1%positive := setRight (mkNode 5%Z None None) 2%positive]> store4)
    2%positive
  = Some (tree5,
          <[1%positive := setRight (mkNode 5%Z None None) 2%positive]> store4,
          (2%positive, false)).
Proof.
  apply (Upsert_same_node_again Z.ltb tree5 store4 2%positive
           (mkNode 3%Z None None) 1 tree5 _ 2%positive true).
  - intros a c. reflexivity.
  - intros p. apply Z.ltb_irrefl.
  - reflexivity.
  - reflexivity.
Defined.

Lemma Upsert_step_on_tree_witness :
  ∃ b' h' t' x i,
    Upsert 1 tree5 store4 2%positive = Some (b', h', (x, i))
    ∧ rep b' h' t' ∧ ordered Z.ltb t'
    ∧ (if i then x = 2%positive ∧ inorder t' ≡ₚ 2%positive :: inorder shape5
       else t' = shape5)
    ∧ x ∈ inorder t' ∧ height t' ≤ S (height shape5).
Proof.
  apply (Upsert_step_on_tree Z.ltb lessZ tree5 store4 shape5 2%positive 3%Z 1).
  - intros a c. reflexivity.
  - reflexivity.
  - exact rep_5.
  - simpl. repeat split; constructor.
  - simpl. apply not_elem_of_cons. split; [discriminate|apply not_elem_of_nil].
  - reflexivity.
  - simpl. lia.
Defined.

Lemma Upsert_found_iff_present_witness :
  ∃ b' h' x i,
    Upsert 1 tree5 store4 4%positive = Some (b', h', (x, i))
    ∧ (i = false ↔ ∃ q, q ∈ payloads shape5 ∧ equivalent Z.ltb 5%Z q = true).
Proof.
  apply (Upsert_found_iff_present Z.ltb lessZ tree5 store4 shape5 4%positive 5%Z 1).
  - intros a c. reflexivity.
  - intros p q s. rewrite !Z.ltb_lt. lia.
  - reflexivity.
  - exact rep_5.
  - simpl. repeat split; constructor.
  - simpl. apply not_elem_of_cons. split; [discriminate|apply not_elem_of_nil].
  - reflexivity.
  - simpl. lia.
Defined.

Lemma reverse_mirrors_iff_witness :
  ∃ vi vr,
    DepthFirstInOrder 2 tree5 record_visit (store538, []) = Some (store538, vi)
    ∧ DepthFirstReverse 2 tree5 record_visit (store538, []) = Some (store538, vr)
    ∧ (vr = reverse vi
       ↔ length (inorder (T Nil 3%positive 8%Z Nil)) ≤ 1
         ∧ length (inorder (T Nil 2%positive 3%Z Nil)) ≤ 1).
Proof.
  apply (reverse_mirrors_iff tree5 store538
           (T Nil 3%positive 8%Z Nil) 1%positive 5%Z
           (T Nil 2%positive 3%Z Nil) 2 rep_538).
  simpl. lia.
Defined.

Lemma Upsert_root_under_reflexive_Less_witness :
  Upsert 1 (mkBTree (Some 1%positive) less_always) store4 1%positive
  = Some (mkBTree (Some 1%positive) less_always,
          <[1%positive := setLeft (mkNode 5%Z None None) 1%positive]> store4,
          (1%positive, true))
  ∧ ∀ fuel' w,
      DepthFirstInOrder fuel' (mkBTree (Some 1%positive) less_always)
        record_visit
        (<[1%positive := setLeft (mkNode 5%Z None None) 1%positive]> store4, w)
      = None.
Proof.
  apply (Upsert_root_under_reflexive_Less record_visit
           (mkBTree (Some 1%positive) less_always) store4 1%positive
           (mkNode 5%Z None None) 0); reflexivity.
Defined.

Lemma built_operations_return_witness :
  (∃ res, Upsert 3 tree5 store538 2%positive = Some res)
  ∧ ∃ vi vr,
      DepthFirstInOrder 3 tree5 record_visit (store538, []) = Some (store538, vi)
      ∧ DepthFirstReverse 3 tree5 record_visit (store538, []) = Some (store538, vr)
      ∧ NoDup vi ∧ vr ≡ₚ vi.
Proof.
  apply (built_operations_return Z.ltb lessZ tree5 store538 2%positive
           (mkNode 3%Z None None) 3).
  - intros a c. reflexivity.
  - intros p. apply Z.ltb_irrefl.
  - intros p q s. rewrite !Z.ltb_lt. lia.
  - exact built_538.
  - reflexivity.
  - vm_compute. lia.
Defined.

Lemma ascending_input_makes_a_chain_witness :
  (3 ≤ 3 →
   ∃ b h t,
     UpsertAll 3 [1; 2; 3]%Z (New lessZ, ∅) = Some (b, h)
     ∧ rep b h t ∧ left_chain t
     ∧ height t = 3 ∧ payloads t = [3; 2; 1]%Z)
  ∧ (4 < 3 → UpsertAll 3 [1; 2; 3]%Z (New lessZ, ∅) = None).
Proof.
  apply (ascending_input_makes_a_chain Z.ltb lessZ (λ _ _, eq_refl)
           [1; 2; 3]%Z 3).
  repeat constructor.
Defined.

(** * Upserting an equivalent payload twice *)

(** C7, as the code has it.  Upserting a node and then a second node
    whose payload is equivalent to the first one's (neither less than the
    other), under a strict weak ordering of the payloads: the second call
    answers [inserted = false], writes nothing, and hands back the very
    node the first call handed back, which is never the second node.
    That node is the first node when the first call inserted it;
    otherwise it is a node that was in the tree before, holding a payload
    equivalent to the first node's.  On an ordered tree the first call
    inserts exactly when the tree holds no equivalent payload. *)
Theorem Upsert_equivalent_again {P : Type} (lt : P → P → bool)
    (b : BTree P) (h : gmap loc (Node P)) (t : tree P)
    (n1 n2 : loc) (m1 m2 : Node P) (fuel : nat) :
  (∀ a c, Less b a c = lt (Payload a) (Payload c)) → StrictWeakOrder lt →
  heap_tree h t → Root b = root_of t → n2 ∉ inorder t → n1 ≠ n2 →
  h !! n1 = Some m1 → h !! n2 = Some m2 →
  equivalent lt (Payload m1) (Payload m2) = true → height t ≤ fuel →
  ∃ b1 h1 x i,
    Upsert fuel b h n1 = Some (b1, h1, (x, i))
    ∧ Upsert (S fuel) b1 h1 n2 = Some (b1, h1, (x, false))
    ∧ x ≠ n2
    ∧ (i = true → x = n1)
    ∧ (i = false →
       x ∈ inorder t
       ∧ ∃ q, payload_at h x = Some q
              ∧ equivalent lt (Payload m1) q = true)
    ∧ (ordered lt t →
       (i = true
        ↔ Forall (λ q, equivalent lt (Payload m1) q = false) (payloads t))).
Proof.
  intros Hless Hswo Ht Hroot Hn2t Hne Hn1 Hn2 Heq Hfuel. unfold Upsert.
  destruct (Root b) as [root|] eqn:Hb.
  - destruct (upsertFrom_total (Less b) fuel h t root n1 m1)
      as (h1 & x & i & Hup & Hx); [done..|].
    destruct (upsertFrom_path lt (Less b) Hless fuel h t root n1 m1)
      as (h1' & Hpath); [done..|].
    rewrite Hup in Hpath. injection Hpath as _ Hres.
    rewrite Hup. exists b, h1, x, i. rewrite Hb.
    rewrite (upsertFrom_again lt (Less b) Hless Hswo _ _ _ _ _ _ _ _ _ _
               Hn1 Hn2 Heq Hup).
    split; [done|]. split; [done|]. split_and!.
    + destruct i; [by subst|]. by intros ->.
    + by destruct i.
    + intros ->. split; [done|].
      destruct (upsertFrom_found_equivalent _ _ _ _ _ _ _ Hup)
        as (c & m & Hc & Hm & Hcm & Hmc).
      assert (m = m1) as -> by congruence.
      exists (Payload c). unfold payload_at. rewrite Hc. split; [done|].
      rewrite !Hless in *. unfold equivalent. by rewrite Hcm, Hmc.
    + intros Hord.
      pose proof (ins_inserted_new lt (swo_trans lt Hswo) t n1 (Payload m1) Hord)
        as Hnew.
      pose proof (ins_found lt t n1 (Payload m1)) as Hfound.
      rewrite <-Hres in Hnew, Hfound. simpl in *. split; [done|].
      intros Hall. destruct i; [done|].
      destruct Hfound as (_ & _ & q & Hq & He); [done|].
      rewrite Forall_forall in Hall. rewrite (Hall q Hq) in He. done.
  - symmetry in Hroot. apply root_of_None in Hroot as ->.
    eexists _, h, n1, true. split; [done|]. cbn [Root Less].
    rewrite upsertFrom_S, Hn1, Hn2, !Hless.
    apply (equivalent_true lt) in Heq as [-> ->].
    split; [done|]. split; [by intros ->|]. split; [done|].
    split; [done|]. intros _. split; [by constructor|done].
Qed.

Lemma Upsert_equivalent_again_witness :
  ∃ b1 h1 x i,
    Upsert 1 tree5 store4 2%positive = Some (b1, h1, (x, i))
    ∧ Upsert 2 b1 h1 3%positive = Some (b1, h1, (x, false))
    ∧ x ≠ 3%positive
    ∧ (i = true → x = 2%positive)
    ∧ (i = false →
       x ∈ inorder shape5
       ∧ ∃ q, payload_at store4 x = Some q ∧ equivalent Z.ltb 3%Z q = true)
    ∧ (ordered Z.ltb shape5 →
       (i = true
        ↔ Forall (λ q, equivalent Z.ltb 3%Z q = false) (payloads shape5))).
Proof.
  apply (Upsert_equivalent_again Z.ltb tree5 store4 shape5 2%positive 3%positive
           (mkNode 3%Z None None) (mkNode 3%Z None None) 1).
  - intros a c. reflexivity.
  - split.
    + intros p. apply Z.ltb_irrefl.
    + intros p q s. rewrite !Z.ltb_lt. lia.
    + intros p q s. unfold equivalent.
      rewrite !andb_true_iff, !negb_true_iff, !Z.ltb_ge. lia.
  - simpl. split; [reflexivity|split; exact I].
  - reflexivity.
  - simpl. apply not_elem_of_cons. split; [discriminate|apply not_elem_of_nil].
  - discriminate.
  - reflexivity.
  - reflexivity.
  - reflexivity.
  - simpl. lia.
Defined.

(** Where the tree already holds 5, upserting a second and then a third
    node carrying 5 hands back the old root both times: the handle is
    the same, but it is not the first of the two nodes. *)
Lemma equivalent_again_returns_old_node :
  Upsert 1 tree5 store555 2%positive = Some (tree5, store555, (1%positive, false))
  ∧ Upsert 2 tree5 store555 3%positive
    = Some (tree5, store555, (1%positive, false))
  ∧ ¬ ∃ b1 h1 x i,
        Upsert 1 tree5 store555 2%positive = Some (b1, h1, (x, i))
        ∧ Upsert 2 b1 h1 3%positive = Some (b1, h1, (x, false))
        ∧ x = 2%positive.
Proof.
  assert (Upsert 1 tree5 store555 2%positive
          = Some (tree5, store555, (1%positive, false))) as Hfirst
    by reflexivity.
  split; [done|]. split; [reflexivity|].
  intros (b1 & h1 & x & i & Hup & _ & Hx). rewrite Hfirst in Hup.
  injection Hup as _ _ <- _. discriminate.
Qed.
